(** * Shelf: the book-shelf page (src/index.tsx)

    A shallow embedding of the logic of the [Home] component: the ASIN
    extraction, the three handlers that talk to the [books] table
    ([fetchBooks], [addBook], [handleDragEnd]) and the visibility toggle.

    JavaScript strings are sequences of UTF-16 code units, written here as
    [list N]; numbers that hold ids, orders and indices are integers, [Z].
    The table behind the Supabase client and the [arrayMove] helper of
    dnd-kit are collaborators of the page and are modelled next to it. *)

From Stdlib Require Import String Ascii.
From stdpp Require Import base tactics option numbers list sorting.

Local Open Scope Z_scope.

(** ** JavaScript strings *)

Module JsString.

(** A string is the list of its UTF-16 code units. *)
Abbreviation t := (list N).

(** An ASCII literal as a JavaScript string. *)
Fixpoint lit (s : string) : t :=
  match s with
  | EmptyString => []
  | String c s' => N_of_ascii c :: lit s'
  end.

(** WhiteSpace and LineTerminator code points of ECMAScript, the ones
    [String.prototype.trim] strips. *)
Definition isWhiteSpace (c : N) : bool :=
  ((9 <=? c) && (c <=? 13)             (* TAB, LF, VT, FF, CR *)
   || (c =? 32)                        (* SPACE *)
   || (c =? 160)                       (* NO-BREAK SPACE *)
   || (c =? 5760)                      (* U+1680 *)
   || ((8192 <=? c) && (c <=? 8202))   (* U+2000 .. U+200A *)
   || (c =? 8232) || (c =? 8233)       (* U+2028, U+2029 *)
   || (c =? 8239)                      (* U+202F *)
   || (c =? 8287)                      (* U+205F *)
   || (c =? 12288)                     (* U+3000 *)
   || (c =? 65279))%N.                 (* U+FEFF *)

Fixpoint trimStart (s : t) : t :=
  match s with
  | [] => []
  | c :: s' => if isWhiteSpace c then trimStart s' else s
  end.

Definition trimEnd (s : t) : t := reverse (trimStart (reverse s)).

(** [s.trim()] *)
Definition trim (s : t) : t := trimEnd (trimStart s).

(** Truthiness of a string: only the empty string is falsy. *)
Definition truthy (s : t) : bool :=
  match s with
  | [] => false
  | _ :: _ => true
  end.

End JsString.

(** ** Identifier extraction *)

Module Asin.

Local Open Scope N_scope.

Definition slash : N := 47.
Definition question : N := 63.

(** The character class [[A-Z0-9]]. *)
Definition isUpperAlnum (c : N) : bool :=
  ((65 <=? c) && (c <=? 90)) || ((48 <=? c) && (c <=? 57)).

(** The character class [[/?]]. *)
Definition isSlashOrQuestion (c : N) : bool :=
  (c =? slash) || (c =? question).

(** [[A-Z0-9]{n}] at the head of [s]: the text consumed and the rest. *)
Fixpoint matchClassN (n : nat) (s : JsString.t)
  : option (JsString.t * JsString.t) :=
  match n with
  | O => Some ([], s)
  | S n' =>
      match s with
      | [] => None
      | c :: s' =>
          if isUpperAlnum c then
            match matchClassN n' s' with
            | Some (g, r) => Some (c :: g, r)
            | None => None
            end
          else None
      end
  end.

(** [(?:[/?]|$)]: one of the two delimiters, or the end of the input
    (there is no [m] flag, so [$] is the end of the string). *)
Definition matchBoundary (s : JsString.t) : bool :=
  match s with
  | [] => true
  | c :: _ => isSlashOrQuestion c
  end.

(** The pattern [\/([A-Z0-9]{10})(?:[/?]|$)] anchored at the head of
    [s]; the result is capture group 1. *)
Definition matchHere (s : JsString.t) : option JsString.t :=
  match s with
  | [] => None
  | c :: s' =>
      if c =? slash then
        match matchClassN 10 s' with
        | Some (g, r) => if matchBoundary r then Some g else None
        | None => None
        end
      else None
  end.

(** [url.match(re)] for a pattern without the [g] flag: the match at the
    leftmost position where the pattern matches. *)
Fixpoint regexMatch (s : JsString.t) : option JsString.t :=
  match matchHere s with
  | Some g => Some g
  | None =>
      match s with
      | [] => None
      | _ :: s' => regexMatch s'
      end
  end.

(** [extractASIN(url?: string): string | null]; [None] as argument is a
    missing url, [None] as result is [null]. *)
Definition extractASIN (url : option JsString.t) : option JsString.t :=
  match url with
  | None => None
  | Some s =>
      if negb (JsString.truthy s) then None
      else
        match regexMatch s with
        | Some g => Some g
        | None => None
        end
  end.

(** [getCoverImageUrl(asin)] *)
Definition getCoverImageUrl (asin : JsString.t) : JsString.t :=
  JsString.lit "https://images-na.ssl-images-amazon.com/images/P/"
    ++ asin ++ JsString.lit ".01._SCLZZZZZZZ_.jpg".

(** The words of the specification: an uppercase letter or a digit. *)
Definition upper_or_digit (c : N) : Prop :=
  (65 <= c <= 90) \/ (48 <= c <= 57).

(** What may follow the segment: nothing, or a text starting with [/]
    or [?]. *)
Definition delimited (post : JsString.t) : Prop :=
  post = [] \/ exists c rest, post = c :: rest /\ (c = slash \/ c = question).

(** [seg] is a 10-character run of uppercase letters and digits of [s],
    immediately preceded by [/] (after the prefix [pre]) and followed by
    [/], [?] or the end of the string. *)
Definition asin_segment (s pre seg post : JsString.t) : Prop :=
  s = pre ++ slash :: seg ++ post
  /\ length seg = 10%nat
  /\ Forall upper_or_digit seg
  /\ delimited post.

End Asin.

(** ** JavaScript arrays *)

Module JsArray.

Section Array.
Context {A : Type}.

(** [array.findIndex(p)]: the index of the first element that satisfies
    [p], or [-1]. *)
Fixpoint findIndexFrom (p : A -> bool) (i : Z) (l : list A) : Z :=
  match l with
  | [] => -1
  | x :: l' => if p x then i else findIndexFrom p (i + 1) l'
  end.

Definition findIndex (p : A -> bool) (l : list A) : Z := findIndexFrom p 0 l.

(** The start position of [splice] and [slice]: a negative one counts from
    the end, and both are clamped to the array. *)
Definition relativeStart (len start : Z) : Z :=
  if start <? 0 then Z.max (len + start) 0 else Z.min start len.

(** [array.splice(start, deleteCount, ...items)]: the removed elements and
    the array after the call. *)
Definition splice (l : list A) (start deleteCount : Z) (items : list A)
  : list A * list A :=
  let len := Z.of_nat (length l) in
  let s := relativeStart len start in
  let d := Z.min (Z.max deleteCount 0) (len - s) in
  (take (Z.to_nat d) (drop (Z.to_nat s) l),
   take (Z.to_nat s) l ++ items ++ drop (Z.to_nat (s + d)) l).

(** [array.slice(0, n)] *)
Definition slice0 (n : nat) (l : list A) : list A := take n l.

(** Modelled from the spec: [arrayMove] of dnd-kit's sortable package is
    imported by the page and is not part of it; "remove the element at
    source and reinsert it at destination, shifting all elements between
    the two positions by one". The body follows the library,
    [[
      const newArray = array.slice();
      newArray.splice(to < 0 ? newArray.length + to : to, 0,
                      newArray.splice(from, 1)[0]);
      return newArray;
    ]]
    where the target position is computed before the element is removed.
    When nothing is removed (an empty array, or [from] past the end) the
    library inserts [undefined]; that array is not a list of [A] and is
    [None] here. *)
Definition arrayMove (array : list A) (from to : Z) : option (list A) :=
  let newArray := array in
  let target := if to <? 0 then Z.of_nat (length newArray) + to else to in
  let '(removed, newArray) := splice newArray from 1 [] in
  match removed with
  | [] => None
  | x :: _ => Some (snd (splice newArray target 0 [x]))
  end.

End Array.

End JsArray.

(** ** Records, the table and the component state *)

(** [type Book] *)
Record Book : Type := mkBook {
  id : Z;
  url : JsString.t;
  comment : JsString.t;
  book_order : Z;
}.

(** The state of the [Home] component, one field per [useState]. *)
Record HomeState : Type := mkHome {
  books : list Book;
  newUrl : JsString.t;
  showAll : bool;
  successMessage : JsString.t;
}.

(** A request sent to the [books] table. *)
Inductive Request : Type :=
| Select                                       (* select * order by book_order asc *)
| Insert (url : JsString.t) (book_order : Z)   (* insert [{url, book_order}] *)
| Update (book_order : Z) (id : Z).            (* update {book_order} where id = ... *)

(** What the page and its collaborators hold between two events: the
    component state, the rows of the table, the outcomes the network will
    give to the next requests ([true] is a success; past the end of the list
    every request succeeds), the requests sent so far, and the delays of the
    timers that were started and have not fired. *)
Record World : Type := mkWorld {
  home : HomeState;
  table : list Book;
  outcomes : list bool;
  sent : list Request;
  timers : list Z;
}.

(** The error object of a response. *)
Inductive PostgrestError : Type := StoreError.

(** [{ data, error }] *)
Record Response (D : Type) : Type := mkResponse {
  data : option D;
  error : option PostgrestError;
}.
Arguments mkResponse {D} _ _.
Arguments data {D} _.
Arguments error {D} _.

(** ** Handlers run in a state monad over [World]; [None] is an uncaught
    exception. *)

Definition M (A : Type) : Type := World -> option (A * World).

#[export] Instance M_ret : MRet M := fun A (a : A) w => Some (a, w).

#[export] Instance M_bind : MBind M :=
  fun A B (k : A -> M B) (m : M A) w =>
    match m w with
    | Some (a, w') => k a w'
    | None => None
    end.

Definition throw {A} : M A := fun _ => None.

Definition getHome : M HomeState := fun w => Some (home w, w).

Definition modifyHome (f : HomeState -> HomeState) : M unit :=
  fun w => Some (tt, mkWorld (f (home w)) (table w) (outcomes w) (sent w) (timers w)).

Definition setBooks (b : list Book) : M unit :=
  modifyHome (fun h => mkHome b (newUrl h) (showAll h) (successMessage h)).

Definition setNewUrl (u : JsString.t) : M unit :=
  modifyHome (fun h => mkHome (books h) u (showAll h) (successMessage h)).

Definition setShowAll (f : bool -> bool) : M unit :=
  modifyHome (fun h => mkHome (books h) (newUrl h) (f (showAll h)) (successMessage h)).

Definition setSuccessMessage (m : JsString.t) : M unit :=
  modifyHome (fun h => mkHome (books h) (newUrl h) (showAll h) m).

(** [setTimeout(cb, ms)]; the only callback of the page clears the success
    message, see [fireTimer]. *)
Definition setTimeout (ms : Z) : M unit :=
  fun w => Some (tt, mkWorld (home w) (table w) (outcomes w) (sent w) (timers w ++ [ms])).

(** ** The table *)

Module Store.

(** Sends a request: it is recorded, and the network decides its outcome. *)
Definition send (r : Request) : M bool :=
  fun w =>
    Some (hd true (outcomes w),
          mkWorld (home w) (table w) (tl (outcomes w)) (sent w ++ [r]) (timers w)).

Definition setTable (t : list Book) : M unit :=
  fun w => Some (tt, mkWorld (home w) t (outcomes w) (sent w) (timers w)).

Definition getTable : M (list Book) := fun w => Some (table w, w).

(** [order('book_order', { ascending: true })] *)
Definition order_le (a b : Book) : Prop := book_order a <= book_order b.

#[export] Instance order_le_dec (a b : Book) : Decision (order_le a b) :=
  Z_le_dec (book_order a) (book_order b).

#[export] Instance order_le_total : Total order_le.
Proof. intros a b. unfold order_le. lia. Qed.

#[export] Instance order_le_trans : Transitive order_le.
Proof. intros a b c. unfold order_le. lia. Qed.

(** Modelled from the spec: the store is a remote service; "select all
    ordered by book_order asc". Rows with equal [book_order] come in the
    order the sort leaves them. *)
Definition ordered (t : list Book) : list Book := merge_sort order_le t.

(** Modelled from the spec: "insert(record) -> assigned id"; the id the
    table assigns is one more than the largest id in it. *)
Definition nextId (t : list Book) : Z :=
  1 + foldr (fun r m => Z.max (id r) m) 0 t.

Definition setOrder (r : Book) (o : Z) : Book :=
  mkBook (id r) (url r) (comment r) o.

(** [supabase.from('books').select('*').order('book_order', ...)]; a failed
    read answers with an error and no data. *)
Definition select : M (Response (list Book)) :=
  ok ← send Select;
  if ok : bool then
    t ← getTable;
    mret (mkResponse (Some (ordered t)) None)
  else mret (mkResponse None (Some StoreError)).

(** [supabase.from('books').insert([{ url, book_order }])]; a failed write
    leaves the table as it is. *)
Definition insert (u : JsString.t) (o : Z) : M (Response unit) :=
  ok ← send (Insert u o);
  if ok : bool then
    t ← getTable;
    setTable (t ++ [mkBook (nextId t) u [] o]);;
    mret (mkResponse None None)
  else mret (mkResponse None (Some StoreError)).

(** [supabase.from('books').update({ book_order }).eq('id', id)] *)
Definition update (o : Z) (i : Z) : M (Response unit) :=
  ok ← send (Update o i);
  if ok : bool then
    t ← getTable;
    setTable (map (fun r => if id r =? i then setOrder r o else r) t);;
    mret (mkResponse None None)
  else mret (mkResponse None (Some StoreError)).

End Store.

(** ** The [Home] component *)

(** The [useState] initial values. *)
Definition initialHome : HomeState := mkHome [] [] false [].

(** '追加成功！' *)
Definition addedMessage : JsString.t := [36861; 21152; 25104; 21151; 65281]%N.

(** [fetchBooks], run once by the mount effect. *)
Definition fetchBooks : M unit :=
  r ← Store.select;
  match error r, data r with
  | None, Some d => setBooks d
  | _, _ => mret tt
  end.

(** [addBook]; [books] and [newUrl] are the values of the render that
    created the handler. *)
Definition addBook : M unit :=
  h ← getHome;
  if negb (JsString.truthy (JsString.trim (newUrl h))) then mret tt
  else
    r ← Store.insert (newUrl h) (Z.of_nat (length (books h)));
    match error r with
    | Some _ => mret tt
    | None =>
        r' ← Store.select;
        setBooks (default [] (data r'));;
        setNewUrl [];;
        setSuccessMessage addedMessage;;
        setTimeout 2000
    end.

(** [DragEndEvent]: the id of the dragged item, and the id of the item it
    was dropped over, if there is one. *)
Record DragEndEvent : Type := mkDragEnd {
  active : Z;
  over : option Z;
}.

(** [Promise.all(newBooks.map((book, index) => ...))]: one call per
    element, started in index order. *)
Fixpoint forEachIndexed {A} (f : A -> Z -> M unit) (index : Z) (l : list A) : M unit :=
  match l with
  | [] => mret tt
  | x :: l' => f x index;; forEachIndexed f (index + 1) l'
  end.

(** [handleDragEnd] *)
Definition handleDragEnd (event : DragEndEvent) : M unit :=
  h ← getHome;
  match over event with
  | None => mret tt
  | Some overId =>
      if active event =? overId then mret tt
      else
        let oldIndex := JsArray.findIndex (fun b => id b =? active event) (books h) in
        let newIndex := JsArray.findIndex (fun b => id b =? overId) (books h) in
        match JsArray.arrayMove (books h) oldIndex newIndex with
        | None => throw
        | Some newBooks =>
            setBooks newBooks;;
            forEachIndexed
              (fun book index => _ ← Store.update index (id book); mret tt)
              0 newBooks
        end
  end.

(** [visibleBooks] *)
Definition visibleBooks (h : HomeState) : list Book :=
  if showAll h then books h else JsArray.slice0 5 (books h).

(** The click handler of the toggle button, [setShowAll((prev) => !prev)]. *)
Definition toggleShowAll : M unit := setShowAll negb.

(** The [onChange] handler of the input. *)
Definition changeUrl (value : JsString.t) : M unit := setNewUrl value.

(** The timer callback, [() => setSuccessMessage('')]. *)
Definition fireTimer : M unit :=
  fun w =>
    match timers w with
    | [] => Some (tt, w)
    | _ :: ts =>
        setSuccessMessage [] (mkWorld (home w) (table w) (outcomes w) (sent w) ts)
    end.

(** The world when the page is opened over a table [t], with the network
    outcomes [o]. *)
Definition openPage (t : list Book) (o : list bool) : World :=
  mkWorld initialHome t o [] [].

(** Runs a handler and keeps the world it leaves. *)
Definition exec {A} (m : M A) (w : World) : option World :=
  match m w with
  | Some (_, w') => Some w'
  | None => None
  end.

(** ** Worlds after a step, and the statements about Reorder *)

(** The world a request leaves when the table does not change. *)
Definition afterSend (r : Request) (w : World) : World :=
  mkWorld (home w) (table w) (tl (outcomes w)) (sent w ++ [r]) (timers w).

(** The world [setBooks b] leaves. *)
Definition withBooks (b : list Book) (w : World) : World :=
  mkWorld (mkHome b (newUrl (home w)) (showAll (home w)) (successMessage (home w)))
    (table w) (outcomes w) (sent w) (timers w).

(** The world one [update] request leaves: the rows with the given id get
    the new order when the request succeeds. *)
Definition afterUpdate (o i : Z) (w : World) : World :=
  mkWorld (home w)
    (if hd true (outcomes w)
     then map (fun r => if id r =? i then Store.setOrder r o else r) (table w)
     else table w)
    (tl (outcomes w)) (sent w ++ [Update o i]) (timers w).

(** The world the [update] requests for [l], numbered from [index], leave. *)
Fixpoint afterUpdates (index : Z) (l : list Book) (w : World) : World :=
  match l with
  | [] => w
  | b :: l' => afterUpdates (index + 1) l' (afterUpdate index (id b) w)
  end.

(** The requests a handler added to the ones of [w]. *)
Definition newRequests (w w' : World) : list Request :=
  drop (length (sent w)) (sent w').

(** The [book_order] values of a list are 0, 1, 2, ... in this order. *)
Definition dense (l : list Book) : Prop :=
  book_order <$> l = Z.of_nat <$> seq 0 (length l).

(** [Reorder(s, d)] is the drag of the record at position [s] of the local
    list onto the record at position [d], two different positions of a list
    whose ids are distinct.

    The statement of the specification about the local list: the list after
    the drag is the list before it with the record of position [s] moved to
    position [d], and the [book_order] of every record in it is its
    position. *)
Definition reorder_renumbers_local (w : World) (s d : nat) : Prop :=
  NoDup (id <$> books (home w)) ->
  s <> d ->
  forall bs bd,
    books (home w) !! s = Some bs ->
    books (home w) !! d = Some bd ->
    exists w',
      handleDragEnd (mkDragEnd (id bs) (Some (id bd))) w = Some (tt, w')
      /\ books (home w') ≡ₚ books (home w)
      /\ books (home w') !! d = Some bs
      /\ delete d (books (home w')) = delete s (books (home w))
      /\ forall i b, books (home w') !! i = Some b -> book_order b = Z.of_nat i.


(** The list of the scenario of the specification,
    [[{id:1,order:0},{id:2,order:1},{id:3,order:2}]]. *)
Definition shelf123 : list Book :=
  [mkBook 1 [] [] 0; mkBook 2 [] [] 1; mkBook 3 [] [] 2].

(** A page showing [shelf123], in step with the table. *)
Definition world123 : World :=
  mkWorld (mkHome shelf123 [] false []) shelf123 [] [] [].

(** The url typed in the scenario below. *)
Definition someUrl : JsString.t := JsString.lit "https://a.example/dp/B08XYZAB12/".

(** A page opened over the three rows of [shelf123] whose first read
    failed, after which one url was typed in and added. *)
Definition worldAfterFailedLoad : option World :=
  exec (fetchBooks;; changeUrl someUrl;; addBook) (openPage shelf123 [false]).

(** The world of that page: the list was empty when the url was added, so
    the new row got [book_order] 0, and the list now shows the four rows
    with the orders 0, 0, 1, 2. *)
Definition worldDiverged : World :=
  mkWorld
    (mkHome [mkBook 1 [] [] 0; mkBook 4 someUrl [] 0; mkBook 2 [] [] 1; mkBook 3 [] [] 2]
       [] false addedMessage)
    [mkBook 1 [] [] 0; mkBook 2 [] [] 1; mkBook 3 [] [] 2; mkBook 4 someUrl [] 0]
    [] [Select; Insert someUrl 0; Select] [2000].

(** ** The rest of the page: chunks, covers, the toggle button *)

Module Chunk.

Section Chunk.
Context {A : Type}.

(** [array.slice(start, end)]: both positions are relative to the array
    and clamped to it, as in [JsArray.splice]. *)
Definition slice (l : list A) (start final : Z) : list A :=
  let len := Z.of_nat (length l) in
  let k := JsArray.relativeStart len start in
  let e := JsArray.relativeStart len final in
  take (Z.to_nat (Z.max (e - k) 0)) (drop (Z.to_nat k) l).

(** The loop of [chunkArray],
    [for (let i = 0; i < array.length; i += size) result.push(array.slice(i, i + size))],
    entered with the counter at [i]. Each turn of the loop takes one unit of
    [fuel]; [None] is a loop that is still running when the fuel is gone. *)
Fixpoint chunkLoop (fuel : nat) (array : list A) (size i : Z)
    (result : list (list A)) : option (list (list A)) :=
  if i <? Z.of_nat (length array) then
    match fuel with
    | O => None
    | S fuel' =>
        chunkLoop fuel' array size (i + size)
          (result ++ [slice array i (i + size)])
    end
  else Some result.

(** [chunkArray(array, size)] for an integer [size]. A [size] with a
    fractional part is outside this model: the counter then takes values
    that are not integers, which [slice] truncates. *)
Definition chunkArray (fuel : nat) (array : list A) (size : Z)
  : option (list (list A)) :=
  chunkLoop fuel array size 0 [].

End Chunk.

End Chunk.

(** The [imageUrl] of [SortableBook]:
    [asin ? getCoverImageUrl(asin) : ''] for [asin = extractASIN(book.url)]. *)
Definition imageUrl (book : Book) : JsString.t :=
  match Asin.extractASIN (Some (url book)) with
  | Some asin =>
      if JsString.truthy asin then Asin.getCoverImageUrl asin else []
  | None => []
  end.

(** [{imageUrl && <img src={imageUrl} ... />}]: the [src] of the image that
    [SortableBook] renders, if it renders one. *)
Definition coverImage (book : Book) : option JsString.t :=
  if JsString.truthy (imageUrl book) then Some (imageUrl book) else None.

(** [remainingCount] *)
Definition remainingCount (h : HomeState) : Z :=
  Z.of_nat (length (books h)) - 5.

(** [{books.length > 5 && <button ...>}]: whether the toggle button is
    rendered. *)
Definition toggleButtonShown (h : HomeState) : bool :=
  5 <? Z.of_nat (length (books h)).

(** What the updates for [l], numbered from [index], make of one row when
    all of them succeed. *)
Fixpoint renumberRow (index : Z) (l : list Book) (r : Book) : Book :=
  match l with
  | [] => r
  | b :: l' =>
      renumberRow (index + 1) l'
        (if id r =? id b then Store.setOrder r index else r)
  end.

(** A list with every [book_order] set to the position of its record. *)
Definition renumbered (l : list Book) : list Book :=
  imap (fun i b => Store.setOrder b (Z.of_nat i)) l.

(** The local list shows the rows of the table, in some order. *)
Definition inStep (w : World) : Prop := books (home w) ≡ₚ table w.

(** Every request that is still to come succeeds. *)
Definition allSucceed (w : World) : Prop :=
  Forall (fun o => o = true) (outcomes w).

(** A shelf of seven records numbered by position, in step with its table,
    collapsed. *)
Definition shelf7 : list Book :=
  [mkBook 11 [] [] 0; mkBook 12 [] [] 1; mkBook 13 [] [] 2; mkBook 14 [] [] 3;
   mkBook 15 [] [] 4; mkBook 16 [] [] 5; mkBook 17 [] [] 6].

Definition world7 : World :=
  mkWorld (mkHome shelf7 [] false []) shelf7 [] [] [].

(** * Properties *)

(** ** Identifier extraction *)

Module AsinFacts.
Import Asin.

Local Open Scope N_scope.

Lemma isUpperAlnum_spec c : isUpperAlnum c = true <-> upper_or_digit c.
Proof.
  unfold isUpperAlnum, upper_or_digit.
  rewrite orb_true_iff, !andb_true_iff, !N.leb_le. tauto.
Qed.

Lemma matchBoundary_spec s : matchBoundary s = true <-> delimited s.
Proof.
  unfold matchBoundary, delimited, isSlashOrQuestion.
  destruct s as [|c s].
  - split; [by left | done].
  - rewrite orb_true_iff, !N.eqb_eq. split.
    + intros H. right. by exists c, s.
    + intros [?|(c' & r & [= -> ->] & H)]; [done | exact H].
Qed.

Lemma matchClassN_spec n s g r :
  matchClassN n s = Some (g, r)
  <-> s = g ++ r /\ length g = n /\ Forall upper_or_digit g.
Proof.
  revert s g r. induction n as [|n IH]; intros s g r; simpl.
  - split.
    + intros [= <- <-]. by repeat split.
    + intros (-> & Hlen & _). by destruct g.
  - destruct s as [|c s].
    + split; [done |]. intros (Hs & Hlen & _).
      destruct g; [done | discriminate Hs].
    + destruct (isUpperAlnum c) eqn:Hc.
      * destruct (matchClassN n s) as [[g' r']|] eqn:Hm.
        -- apply IH in Hm as (-> & Hlen & Hall). split.
           ++ intros [= <- <-]. repeat split; simpl; [by f_equal |].
              constructor; [by apply isUpperAlnum_spec | done].
           ++ intros (Hs & Hlen' & Hall').
              destruct g as [|c' g]; [done |]. simpl in Hs.
              injection Hs as <- Hs. injection Hlen' as Hlen'.
              apply Forall_cons in Hall' as [_ Hall'].
              assert (g' = g) as ->.
              { apply (f_equal (take (length g'))) in Hs.
                rewrite take_app_length in Hs.
                rewrite Hlen, <- Hlen', take_app_length in Hs. done. }
              by apply app_inv_head in Hs as ->.
        -- split; [done |]. intros (Hs & Hlen & Hall).
           destruct g as [|c' g]; [done |]. simpl in Hs.
           injection Hs as <- ->. injection Hlen as Hlen.
           apply Forall_cons in Hall as [_ Hall].
           assert (matchClassN n (g ++ r) = Some (g, r)) as Hm'
             by (by apply IH).
           congruence.
      * split; [done |]. intros (Hs & Hlen & Hall).
        destruct g as [|c' g]; [done |]. simpl in Hs.
        injection Hs as <- _.
        apply Forall_cons in Hall as [Hc' _].
        apply isUpperAlnum_spec in Hc'. congruence.
Qed.

Lemma matchHere_spec s g :
  matchHere s = Some g <-> exists post, asin_segment s [] g post.
Proof.
  unfold matchHere, asin_segment. destruct s as [|c s].
  - split; [done | by intros (? & ? & _)].
  - destruct (N.eqb_spec c slash) as [->|Hc].
    + destruct (matchClassN 10 s) as [[g' r]|] eqn:Hm.
      * destruct (matchBoundary r) eqn:Hb.
        -- split.
           ++ intros [= <-].
              apply matchClassN_spec in Hm as (-> & Hlen & Hall).
              exists r. repeat split; try done.
              by apply matchBoundary_spec.
           ++ intros (post & [= ->] & Hlen' & Hall' & Hpost).
              assert (matchClassN 10 (g ++ post) = Some (g, post)) as Hm'
                by (by apply matchClassN_spec).
              congruence.
        -- split; [done |].
           intros (post & [= ->] & Hlen' & Hall' & Hpost).
           assert (matchClassN 10 (g ++ post) = Some (g, post)) as Hm'
             by (by apply matchClassN_spec).
           apply matchBoundary_spec in Hpost. congruence.
      * split; [done |].
        intros (post & [= ->] & Hlen' & Hall' & Hpost).
        assert (matchClassN 10 (g ++ post) = Some (g, post)) as Hm'
          by (by apply matchClassN_spec).
        congruence.
    + split; [done |]. intros (post & [= Hs _] & _). done.
Qed.

Lemma asin_segment_tail c s pre seg post :
  asin_segment (c :: s) (c :: pre) seg post <-> asin_segment s pre seg post.
Proof.
  unfold asin_segment. simpl. split.
  - intros ([= ->] & ?). done.
  - intros (-> & ?). done.
Qed.

Lemma asin_segment_cons_inv c s pre seg post :
  asin_segment (c :: s) pre seg post ->
  (pre = [] /\ asin_segment (c :: s) [] seg post)
  \/ exists pre', pre = c :: pre' /\ asin_segment s pre' seg post.
Proof.
  intros H. destruct pre as [|c' pre]; [by left |]. right.
  pose proof H as (Hs & _). simpl in Hs. injection Hs as Hc _. subst c'.
  exists pre. split; [done |]. by apply (asin_segment_tail c).
Qed.

Lemma regexMatch_None s :
  regexMatch s = None -> forall pre seg post, ~ asin_segment s pre seg post.
Proof.
  induction s as [|c s IH]; cbn [regexMatch].
  - intros _ pre seg post (Hs & _). by destruct pre.
  - destruct (matchHere (c :: s)) as [g|] eqn:Hh; [done |].
    intros Hm pre seg post Hseg.
    apply asin_segment_cons_inv in Hseg as [[-> Hseg]|(pre' & -> & Hseg)].
    + assert (matchHere (c :: s) = Some seg) as Hh'
        by (apply matchHere_spec; by exists post).
      congruence.
    + by eapply IH.
Qed.

Lemma regexMatch_Some s seg :
  regexMatch s = Some seg ->
  exists pre post,
    asin_segment s pre seg post
    /\ forall pre' seg' post',
         asin_segment s pre' seg' post' -> (length pre <= length pre')%nat.
Proof.
  induction s as [|c s IH].
  - done.
  - cbn [regexMatch]. destruct (matchHere (c :: s)) as [g|] eqn:Hh.
    + intros [= ->]. apply matchHere_spec in Hh as [post Hseg].
      exists [], post. split; [done |]. intros. simpl. lia.
    + intros Hm. destruct (IH Hm) as (pre & post & Hseg & Hmin).
      exists (c :: pre), post. split; [by apply asin_segment_tail |].
      intros pre' seg' post' Hseg'.
      apply asin_segment_cons_inv in Hseg'
        as [[-> Hseg']|(pre'' & -> & Hseg')].
      * assert (matchHere (c :: s) = Some seg') as Hh'
          by (apply matchHere_spec; by exists post').
        congruence.
      * simpl. apply Hmin in Hseg'. lia.
Qed.

(** C2. [extractASIN] is total. When it answers with a segment, the url is
    present and the segment is a 10-character run of uppercase letters and
    digits preceded by [/] and followed by [/], [?] or the end of the
    string, and no such run starts earlier in the url; when it answers
    [null], the url is missing or holds no such run. Since one of the two
    answers is always given, a url with such a run yields the first one and
    every other input yields [null]. *)
Theorem extractASIN_first_segment (url : option JsString.t) :
  match extractASIN url with
  | Some seg =>
      exists s pre post,
        url = Some s
        /\ asin_segment s pre seg post
        /\ forall pre' seg' post',
             asin_segment s pre' seg' post' -> (length pre <= length pre')%nat
  | None =>
      forall s, url = Some s ->
                forall pre seg post, ~ asin_segment s pre seg post
  end.
Proof.
  unfold extractASIN. destruct url as [s|]; [| by intros].
  destruct s as [|c s]; simpl JsString.truthy; cbn [negb].
  - intros s [= <-] pre seg post (Hs & _). by destruct pre.
  - destruct (regexMatch (c :: s)) as [g|] eqn:Hm.
    + apply regexMatch_Some in Hm as (pre & post & Hseg & Hmin).
      by exists (c :: s), pre, post.
    + intros s' [= <-]. by apply regexMatch_None.
Qed.

End AsinFacts.

(** ** Running handlers *)

Section Run.

Lemma bind_run {A B} (m : M A) (k : A -> M B) (w : World) :
  (m ≫= k) w = match m w with Some (a, w') => k a w' | None => None end.
Proof. reflexivity. Qed.

Lemma select_run (w : World) :
  Store.select w
  = Some (if hd true (outcomes w)
          then mkResponse (Some (Store.ordered (table w))) None
          else mkResponse None (Some StoreError),
          afterSend Select w).
Proof.
  unfold Store.select. rewrite bind_run. unfold Store.send. simpl.
  by destruct (hd true (outcomes w)).
Qed.

Lemma insert_fail_run (u : JsString.t) (o : Z) (w : World) :
  hd true (outcomes w) = false ->
  Store.insert u o w
  = Some (mkResponse None (Some StoreError), afterSend (Insert u o) w).
Proof.
  intros Hfail. unfold Store.insert. rewrite bind_run.
  unfold Store.send. simpl. by rewrite Hfail.
Qed.

End Run.

Module TrimFacts.
Import JsString.

Lemma trimStart_blank (s : JsString.t) :
  Forall (fun c => isWhiteSpace c = true) s -> trimStart s = [].
Proof.
  induction 1 as [|c s Hc _ IH]; simpl; [done |]. by rewrite Hc.
Qed.

Lemma trim_blank (s : JsString.t) :
  Forall (fun c => isWhiteSpace c = true) s -> trim s = [].
Proof.
  intros H. unfold trim, trimEnd. by rewrite (trimStart_blank s H).
Qed.

Lemma trimStart_nil_inv (s : JsString.t) :
  trimStart s = [] -> Forall (fun c => isWhiteSpace c = true) s.
Proof.
  induction s as [|c s IH]; simpl; [done |].
  destruct (isWhiteSpace c) eqn:Hc; [| done].
  intros H. constructor; auto.
Qed.

(** The guard of [addBook] lets a string through exactly when it has a
    character that is not white space. *)
Lemma trim_truthy (s : JsString.t) :
  truthy (trim s) = false <-> Forall (fun c => isWhiteSpace c = true) s.
Proof.
  split.
  - unfold trim, trimEnd. intros H.
    destruct (reverse (trimStart (reverse (trimStart s)))) as [|c r] eqn:Hr;
      [| done].
    apply (f_equal reverse) in Hr. rewrite reverse_involutive in Hr.
    simpl in Hr. apply trimStart_nil_inv in Hr.
    apply Forall_reverse in Hr. rewrite reverse_involutive in Hr.
    clear H. induction s as [|c s IH]; [done |]. simpl in Hr.
    destruct (isWhiteSpace c) eqn:Hc; [by constructor; auto |].
    apply Forall_cons in Hr as [Hc' _]. congruence.
  - intros H. by rewrite trim_blank.
Qed.

End TrimFacts.

(** ** The handlers that leave everything as it is *)

(** C4. A drag that ends on the record it started from ([active.id] equal
    to [over.id]) returns at the guard: the handler leaves the whole world
    as it was, so the local sequence with every [book_order] in it and the
    table are unchanged and no request joins the ones already sent. *)
Theorem handleDragEnd_same_record (w : World) (i : Z) :
  handleDragEnd (mkDragEnd i (Some i)) w = Some (tt, w)
  /\ newRequests w w = [].
Proof.
  split.
  - unfold handleDragEnd. rewrite bind_run. unfold getHome. simpl.
    by rewrite Z.eqb_refl.
  - apply drop_all.
Qed.

(** C10. A drag that ends over no drop target ([over] is null) leaves the
    local list as it was and sends nothing to the table: the world after
    the handler is the world before it. *)
Theorem handleDragEnd_no_target (w : World) (a : Z) :
  handleDragEnd (mkDragEnd a None) w = Some (tt, w)
  /\ newRequests w w = [].
Proof.
  split.
  - unfold handleDragEnd. rewrite bind_run. reflexivity.
  - apply drop_all.
Qed.

(** C9. With an input that is empty or holds white space only, [addBook]
    returns at its guard: nothing is inserted and the list, the input field
    and the success message are as before (the world is unchanged). *)
Theorem addBook_blank_input (w : World) :
  Forall (fun c => JsString.isWhiteSpace c = true) (newUrl (home w)) ->
  addBook w = Some (tt, w).
Proof.
  intros Hblank. unfold addBook. rewrite bind_run. unfold getHome.
  apply TrimFacts.trim_truthy in Hblank. by rewrite Hblank.
Qed.

Lemma addBook_blank_input_witness :
  let w := mkWorld (mkHome [mkBook 1 [] [] 0] [32; 12288; 9]%N false [])
                   [mkBook 1 [] [] 0] [] [] [] in
  addBook w = Some (tt, w).
Proof.
  intros w. apply (addBook_blank_input w). simpl.
  repeat constructor.
Defined.

(** C6. When the table answers the insert of [addBook] with an error, the
    handler ends there without an exception: the component state (list,
    input field, success message) is the one before the click, no timer is
    started, the table is unchanged, and the failed insert is the only
    request sent. The component state has no field for an error. *)
Theorem addBook_write_error (w : World) :
  JsString.truthy (JsString.trim (newUrl (home w))) = true ->
  hd true (outcomes w) = false ->
  addBook w
  = Some (tt, mkWorld (home w) (table w) (tl (outcomes w))
                (sent w ++ [Insert (newUrl (home w))
                                   (Z.of_nat (length (books (home w))))])
                (timers w)).
Proof.
  intros Hurl Hfail. unfold addBook. rewrite bind_run. unfold getHome.
  rewrite Hurl. cbn [negb]. rewrite bind_run.
  by rewrite (insert_fail_run _ _ _ Hfail).
Qed.

Lemma addBook_write_error_witness :
  let h := mkHome [mkBook 1 [] [] 0] (JsString.lit "https://a.example/dp/B08XYZAB12/")
                  false [] in
  addBook (mkWorld h [mkBook 1 [] [] 0] [false] [] [])
  = Some (tt, mkWorld h [mkBook 1 [] [] 0] []
                [Insert (JsString.lit "https://a.example/dp/B08XYZAB12/") 1] []).
Proof.
  intros h.
  apply (addBook_write_error (mkWorld h [mkBook 1 [] [] 0] [false] [] []));
    reflexivity.
Defined.

(** ** Load *)

Module StoreFacts.
Import Store.

Lemma ordered_sorted (t : list Book) : Sorted order_le (ordered t).
Proof. apply Sorted_merge_sort, _. Qed.

Lemma ordered_perm (t : list Book) : ordered t ≡ₚ t.
Proof. apply merge_sort_Permutation. Qed.

Lemma ordered_length (t : list Book) : length (ordered t) = length t.
Proof. by rewrite ordered_perm. Qed.

Lemma insert_ok_run (u : JsString.t) (o : Z) (w : World) :
  hd true (outcomes w) = true ->
  insert u o w
  = Some (mkResponse None None,
          mkWorld (home w) (table w ++ [mkBook (nextId (table w)) u [] o])
            (tl (outcomes w)) (sent w ++ [Insert u o]) (timers w)).
Proof.
  intros Hok. unfold insert. rewrite bind_run.
  unfold send. simpl. by rewrite Hok.
Qed.

End StoreFacts.

Lemma fetchBooks_run (w : World) :
  fetchBooks w
  = Some (tt, if hd true (outcomes w)
              then withBooks (Store.ordered (table w)) (afterSend Select w)
              else afterSend Select w).
Proof.
  unfold fetchBooks. rewrite bind_run, select_run.
  by destruct (hd true (outcomes w)).
Qed.

(** C7. [fetchBooks] sends one read and nothing else, and never changes the
    table. When the read fails the component state is the one before; when
    it succeeds the list is replaced by the rows of the table sorted by
    [book_order] ascending (a sorted rearrangement of all the rows), with
    the other fields of the state as before. On the page that was just
    opened, where the mount effect runs it, the one request sent is that
    read, and after a failed read the list is still empty. *)
Theorem fetchBooks_load :
  (forall w : World,
     exists w',
       fetchBooks w = Some (tt, w')
       /\ sent w' = sent w ++ [Select]
       /\ table w' = table w
       /\ timers w' = timers w
       /\ if hd true (outcomes w)
          then home w' = mkHome (Store.ordered (table w)) (newUrl (home w))
                           (showAll (home w)) (successMessage (home w))
               /\ Sorted Store.order_le (books (home w'))
               /\ books (home w') ≡ₚ table w
          else home w' = home w)
  /\ (forall (t : list Book) (o : list bool),
        exists w',
          fetchBooks (openPage t o) = Some (tt, w')
          /\ sent w' = [Select]
          /\ books (home w') = if hd true o then Store.ordered t else []).
Proof.
  split.
  - intros w. rewrite fetchBooks_run. eexists. split; [reflexivity |].
    destruct (hd true (outcomes w)); simpl; repeat split.
    + apply StoreFacts.ordered_sorted.
    + apply StoreFacts.ordered_perm.
  - intros t o. rewrite fetchBooks_run. eexists. split; [reflexivity |].
    simpl. by destruct (hd true o).
Qed.

(** ** Visibility *)

(** C8. The toggle is the boolean [showAll]: it starts as [false]
    (collapsed), a click on the button negates it and changes nothing else,
    and what is rendered is, position by position, the whole list when it
    is [true] and the records at positions 0 to 4 of the list when it is
    [false]. *)
Theorem visibleBooks_toggle :
  showAll initialHome = false
  /\ (forall h : HomeState,
        visibleBooks h = if showAll h then books h else take 5 (books h))
  /\ (forall (h : HomeState) (i : nat),
        visibleBooks h !! i
        = if showAll h then books h !! i
          else if decide (i < 5)%nat then books h !! i else None)
  /\ (forall h : HomeState,
        length (visibleBooks h)
        = if showAll h then length (books h)
          else Nat.min 5 (length (books h)))
  /\ (forall w : World,
        toggleShowAll w
        = Some (tt, mkWorld (mkHome (books (home w)) (newUrl (home w))
                               (negb (showAll (home w)))
                               (successMessage (home w)))
                      (table w) (outcomes w) (sent w) (timers w))).
Proof.
  split; [done |]. split; [done |]. split; [| split; [| done]].
  - intros h i. unfold visibleBooks, JsArray.slice0.
    destruct (showAll h); [done |].
    destruct (decide (i < 5)%nat) as [Hi|Hi].
    + by rewrite lookup_take_lt.
    + apply lookup_take_ge. lia.
  - intros h. unfold visibleBooks, JsArray.slice0.
    destruct (showAll h); [done |]. by rewrite length_take.
Qed.

(** ** Append *)

Lemma addBook_sends_insert (w : World) :
  JsString.truthy (JsString.trim (newUrl (home w))) = true ->
  exists w' rest,
    addBook w = Some (tt, w')
    /\ sent w' = sent w
                 ++ Insert (newUrl (home w)) (Z.of_nat (length (books (home w))))
                 :: rest.
Proof.
  intros Hurl. unfold addBook. rewrite bind_run. unfold getHome.
  rewrite Hurl. cbn [negb]. rewrite bind_run.
  destruct (hd true (outcomes w)) eqn:Hok.
  - rewrite (StoreFacts.insert_ok_run _ _ _ Hok). simpl.
    rewrite bind_run, select_run. simpl.
    eexists _, [Select]. split; [reflexivity |]. simpl.
    by rewrite <- app_assoc.
  - rewrite (insert_fail_run _ _ _ Hok). simpl.
    eexists _, []. by split.
Qed.

(** An append whose insert and reload both succeed shows every row of the
    table, the new one included. *)
Lemma addBook_reloaded (w : World) :
  JsString.truthy (JsString.trim (newUrl (home w))) = true ->
  hd true (outcomes w) = true ->
  hd true (tl (outcomes w)) = true ->
  exists w',
    addBook w = Some (tt, w')
    /\ table w' = table w
                  ++ [mkBook (Store.nextId (table w)) (newUrl (home w)) []
                        (Z.of_nat (length (books (home w))))]
    /\ books (home w') = Store.ordered (table w')
    /\ length (books (home w')) = S (length (table w))
    /\ newUrl (home w') = []
    /\ successMessage (home w') = addedMessage
    /\ timers w' = timers w ++ [2000].
Proof.
  intros Hurl Hok Hok'. unfold addBook. rewrite bind_run. unfold getHome.
  rewrite Hurl. cbn [negb]. rewrite bind_run.
  rewrite (StoreFacts.insert_ok_run _ _ _ Hok). simpl.
  rewrite bind_run, select_run. simpl. rewrite Hok'. simpl.
  eexists. split; [reflexivity |]. simpl. repeat split.
  rewrite StoreFacts.ordered_length, length_app. simpl. lia.
Qed.

(** C3. The list [[b1]] with a url typed in; the insert succeeds and the
    read that follows it fails. [addBook] inserts the new row with
    [book_order] 1, the length of the list, and then replaces the list by
    the empty one ([data || []]) while it clears the input and shows the
    success message: the list went from one record to none. *)
Theorem addBook_reload_error :
  let b1 := mkBook 1 (JsString.lit "https://a.example/dp/4101010013") [] 0 in
  let u := JsString.lit "https://a.example/dp/B08XYZAB12/" in
  let w := mkWorld (mkHome [b1] u false []) [b1] [true; false] [] [] in
  addBook w
  = Some (tt, mkWorld (mkHome [] [] false addedMessage)
                [b1; mkBook 2 u [] 1] []
                [Insert u 1; Select] [2000])
  /\ (length (books (mkHome [] [] false addedMessage))
      < length (books (home w)))%nat.
Proof. split; [reflexivity | simpl; lia]. Qed.

(** ** Arrays *)

Module ArrayFacts.
Import JsArray.

Section Array.
Context {A : Type}.
Implicit Types (l : list A) (x : A) (s d i : nat).

Lemma findIndexFrom_first (p : A -> bool) l (k : Z) i x :
  l !! i = Some x ->
  p x = true ->
  (forall j y, (j < i)%nat -> l !! j = Some y -> p y = false) ->
  findIndexFrom p k l = k + Z.of_nat i.
Proof.
  revert k i. induction l as [|y l IH]; intros k i Hi Hp Hbefore; [done |].
  destruct i as [|i]; simpl in *.
  - injection Hi as ->. rewrite Hp. lia.
  - rewrite (Hbefore 0%nat y) by (done || lia).
    rewrite (IH (k + 1) i); [lia | done.. |].
    intros j z Hj Hz. apply (Hbefore (S j) z); [lia | done].
Qed.

Lemma findIndex_first (p : A -> bool) l i x :
  l !! i = Some x ->
  p x = true ->
  (forall j y, (j < i)%nat -> l !! j = Some y -> p y = false) ->
  findIndex p l = Z.of_nat i.
Proof.
  intros. unfold findIndex. by erewrite findIndexFrom_first.
Qed.

(** [splice(s, 1)] inside the array removes the element at [s]. *)
Lemma splice_remove l s x :
  l !! s = Some x -> splice l (Z.of_nat s) 1 [] = ([x], delete s l).
Proof.
  intros Hs. pose proof (lookup_lt_Some _ _ _ Hs) as Hlen.
  unfold splice, relativeStart.
  destruct (Z.ltb_spec (Z.of_nat s) 0) as [?|_]; [lia |].
  replace (Z.min (Z.of_nat s) (Z.of_nat (length l))) with (Z.of_nat s) by lia.
  replace (Z.min (Z.max 1 0) (Z.of_nat (length l) - Z.of_nat s)) with 1 by lia.
  rewrite Nat2Z.id.
  replace (Z.to_nat (Z.of_nat s + 1)) with (S s) by lia.
  change (Z.to_nat 1) with 1%nat.
  rewrite (drop_S _ _ _ Hs). simpl. by rewrite delete_take_drop.
Qed.

(** [splice(d, 0, x)] up to the end of the array inserts [x] before
    position [d]. *)
Lemma splice_insert l d x :
  (d <= length l)%nat ->
  splice l (Z.of_nat d) 0 [x] = ([], take d l ++ x :: drop d l).
Proof.
  intros Hlen. unfold splice, relativeStart.
  destruct (Z.ltb_spec (Z.of_nat d) 0) as [?|_]; [lia |].
  replace (Z.min (Z.of_nat d) (Z.of_nat (length l))) with (Z.of_nat d) by lia.
  replace (Z.min (Z.max 0 0) (Z.of_nat (length l) - Z.of_nat d)) with 0 by lia.
  rewrite Z.add_0_r, Nat2Z.id. done.
Qed.

Lemma arrayMove_in_bounds l s d x :
  l !! s = Some x ->
  (d < length l)%nat ->
  arrayMove l (Z.of_nat s) (Z.of_nat d)
  = Some (take d (delete s l) ++ x :: drop d (delete s l)).
Proof.
  intros Hs Hd. unfold arrayMove.
  destruct (Z.ltb_spec (Z.of_nat d) 0) as [?|_]; [lia |].
  rewrite (splice_remove _ _ _ Hs).
  rewrite splice_insert; [done |].
  rewrite length_delete by eauto. lia.
Qed.

Section Moved.
Variables (l : list A) (s d : nat) (x : A).
Hypothesis Hs : l !! s = Some x.
Hypothesis Hd : (d < length l)%nat.

Let moved : list A := take d (delete s l) ++ x :: drop d (delete s l).

Lemma moved_take_length : length (take d (delete s l)) = d.
Proof.
  rewrite length_take, length_delete by eauto.
  pose proof (lookup_lt_Some _ _ _ Hs). lia.
Qed.

Lemma moved_perm : moved ≡ₚ l.
Proof.
  unfold moved. rewrite <- Permutation_middle, take_drop.
  symmetry. by apply delete_Permutation.
Qed.

Lemma moved_at_destination : moved !! d = Some x.
Proof.
  unfold moved. apply list_lookup_middle. by rewrite moved_take_length.
Qed.

Lemma moved_delete : delete d moved = delete s l.
Proof.
  unfold moved. rewrite <- moved_take_length at 1.
  by rewrite delete_middle, take_drop.
Qed.

Lemma moved_lookup i :
  moved !! i
  = if decide (i = d) then Some x
    else if decide (i < d)%nat
         then (if decide (i < s)%nat then l !! i else l !! S i)
         else (if decide (i <= s)%nat then l !! (i - 1)%nat else l !! i).
Proof.
  unfold moved. pose proof moved_take_length as Hlen.
  destruct (decide (i = d)) as [->|Hne].
  - apply list_lookup_middle. by rewrite Hlen.
  - destruct (decide (i < d)%nat) as [Hlt|Hge].
    + rewrite lookup_app_l by lia. rewrite lookup_take_lt by done.
      rewrite list_lookup_delete. by case_decide.
    + rewrite lookup_app_r by lia. rewrite Hlen.
      destruct (i - d)%nat as [|k] eqn:Hk; [lia |]. simpl.
      rewrite lookup_drop, list_lookup_delete.
      replace (d + k)%nat with (i - 1)%nat by lia.
      destruct (decide (i - 1 < s)%nat), (decide (i <= s)%nat);
        try lia; [done |].
      f_equal. lia.
Qed.

(** Positions before the smaller and after the larger of the two indices
    keep their element. *)
Lemma moved_outside i :
  (i < Nat.min s d \/ Nat.max s d < i)%nat -> moved !! i = l !! i.
Proof.
  intros Hi. rewrite moved_lookup.
  repeat case_decide; try lia; done.
Qed.

End Moved.

End Array.

End ArrayFacts.

(** ** Reorder *)

Module ReorderFacts.

Lemma worldDiverged_reachable : worldAfterFailedLoad = Some worldDiverged.
Proof. reflexivity. Qed.

Lemma update_run (o i : Z) (w : World) :
  exists r, Store.update o i w = Some (r, afterUpdate o i w).
Proof.
  unfold Store.update. rewrite bind_run. unfold Store.send. simpl.
  unfold afterUpdate. destruct (hd true (outcomes w)); simpl; eauto.
Qed.

Lemma forEachIndexed_run (k : Z) (l : list Book) (w : World) :
  forEachIndexed (fun book index => _ ← Store.update index (id book); mret tt) k l w
  = Some (tt, afterUpdates k l w).
Proof.
  revert k w. induction l as [|b l IH]; intros k w; [done |].
  cbn [forEachIndexed afterUpdates]. rewrite !bind_run.
  destruct (update_run k (id b) w) as [r ->]. simpl. apply IH.
Qed.

Lemma afterUpdates_home k l w : home (afterUpdates k l w) = home w.
Proof. revert k w. induction l as [|b l IH]; intros; [done |]. simpl. by rewrite IH. Qed.

Lemma afterUpdates_timers k l w : timers (afterUpdates k l w) = timers w.
Proof. revert k w. induction l as [|b l IH]; intros; [done |]. simpl. by rewrite IH. Qed.

Lemma afterUpdates_outcomes k l w :
  outcomes (afterUpdates k l w) = drop (length l) (outcomes w).
Proof.
  revert k w. induction l as [|b l IH]; intros; [done |]. simpl.
  rewrite IH. simpl. destruct (outcomes w); simpl; [by rewrite drop_nil | done].
Qed.

Lemma afterUpdates_sent k l w :
  sent (afterUpdates k l w)
  = sent w ++ imap (fun i b => Update (k + Z.of_nat i) (id b)) l.
Proof.
  revert k w. induction l as [|b l IH]; intros k w.
  - simpl. by rewrite app_nil_r.
  - cbn [afterUpdates]. rewrite IH, imap_cons. simpl.
    rewrite <- app_assoc. simpl. rewrite Z.add_0_r. do 2 f_equal.
    apply imap_ext. intros i x _. simpl. f_equal. lia.
Qed.



(** Rows whose id is not among the records of [l] are not touched. *)
Lemma afterUpdates_table_others k l w r :
  r ∈ table (afterUpdates k l w) -> id r ∉ id <$> l -> r ∈ table w.
Proof.
  revert k w. induction l as [|b l IH]; intros k w Hr Hid; [done |].
  cbn [afterUpdates] in Hr. rewrite fmap_cons, not_elem_of_cons in Hid.
  destruct Hid as [Hne Hid]. apply IH in Hr; [| done].
  unfold afterUpdate in Hr. simpl in Hr.
  destruct (hd true (outcomes w)); [| done].
  apply list_elem_of_fmap in Hr as (r0 & -> & Hr0).
  destruct (Z.eqb_spec (id r0) (id b)) as [Heq|_]; [| done].
  simpl in Hne. congruence.
Qed.

(** When every request succeeds, each row of a record of [l] ends with the
    number of that record. *)
Lemma afterUpdates_table_renumbered k l w i b r :
  Forall (fun o => o = true) (outcomes w) ->
  NoDup (id <$> l) ->
  l !! i = Some b ->
  r ∈ table (afterUpdates k l w) ->
  id r = id b ->
  book_order r = k + Z.of_nat i.
Proof.
  revert k w i. induction l as [|b0 l IH]; intros k w i Hok Hnd Hi Hr Hid;
    [done |].
  cbn [afterUpdates] in Hr. rewrite fmap_cons in Hnd.
  apply NoDup_cons in Hnd as [Hfresh Hnd].
  assert (Forall (fun o => o = true) (outcomes (afterUpdate k (id b0) w))) as Hok'.
  { simpl. destruct Hok; [constructor | done]. }
  destruct i as [|i]; simpl in Hi.
  - injection Hi as ->. rewrite Z.add_0_r.
    apply afterUpdates_table_others in Hr; [| by rewrite Hid].
    unfold afterUpdate in Hr. simpl in Hr.
    assert (hd true (outcomes w) = true) as Hhd by (by destruct Hok).
    rewrite Hhd in Hr.
    apply list_elem_of_fmap in Hr as (r0 & -> & _).
    destruct (Z.eqb_spec (id r0) (id b)) as [_|Hne]; [done |].
    congruence.
  - rewrite (IH (k + 1) _ i Hok' Hnd Hi Hr Hid). lia.
Qed.

Lemma findIndex_id (l : list Book) (i : nat) (b : Book) :
  NoDup (id <$> l) ->
  l !! i = Some b ->
  JsArray.findIndex (fun x => id x =? id b) l = Z.of_nat i.
Proof.
  intros Hnd Hi. apply (ArrayFacts.findIndex_first _ _ _ b Hi).
  - apply Z.eqb_refl.
  - intros j y Hj Hy. apply Z.eqb_neq. intros Heq.
    assert (j = i); [| lia].
    apply (NoDup_lookup _ _ _ (id b) Hnd); rewrite list_lookup_fmap.
    + by rewrite Hy, <- Heq.
    + by rewrite Hi.
Qed.

Lemma distinct_ids (l : list Book) (s d : nat) (bs bd : Book) :
  NoDup (id <$> l) ->
  l !! s = Some bs -> l !! d = Some bd -> s <> d -> id bs <> id bd.
Proof.
  intros Hnd Hs Hd Hne Heq. apply Hne.
  apply (NoDup_lookup _ _ _ (id bs) Hnd); rewrite list_lookup_fmap.
  - by rewrite Hs.
  - by rewrite Hd, Heq.
Qed.

(** What [handleDragEnd] does on a [Reorder(s, d)]. *)
Lemma handleDragEnd_run (w : World) (s d : nat) (bs bd : Book) :
  NoDup (id <$> books (home w)) ->
  s <> d ->
  books (home w) !! s = Some bs ->
  books (home w) !! d = Some bd ->
  let l := books (home w) in
  let l' := take d (delete s l) ++ bs :: drop d (delete s l) in
  handleDragEnd (mkDragEnd (id bs) (Some (id bd))) w
  = Some (tt, afterUpdates 0 l' (withBooks l' w)).
Proof.
  intros Hnd Hne Hs Hd l l'. unfold handleDragEnd.
  rewrite bind_run. unfold getHome. simpl.
  destruct (Z.eqb_spec (id bs) (id bd)) as [Heq|_].
  { by destruct (distinct_ids _ _ _ _ _ Hnd Hs Hd Hne). }
  rewrite (findIndex_id _ _ _ Hnd Hs), (findIndex_id _ _ _ Hnd Hd).
  rewrite (ArrayFacts.arrayMove_in_bounds _ _ _ _ Hs)
    by (by apply lookup_lt_Some in Hd).
  rewrite bind_run. simpl. apply forEachIndexed_run.
Qed.

Lemma dense_lookup (l : list Book) (i : nat) (b : Book) :
  dense l -> l !! i = Some b -> book_order b = Z.of_nat i.
Proof.
  unfold dense. intros Hdense Hi.
  assert ((book_order <$> l) !! i = Some (book_order b)) as H
    by (by rewrite list_lookup_fmap, Hi).
  rewrite Hdense, list_lookup_fmap in H.
  rewrite lookup_seq_lt in H by (by apply lookup_lt_Some in Hi).
  simpl in H. by injection H as <-.
Qed.

End ReorderFacts.

Section Reorder.
Import ReorderFacts.

Variables (w : World) (s d : nat) (bs bd : Book).
Hypothesis Hids : NoDup (id <$> books (home w)).
Hypothesis Hdistinct : s <> d.
Hypothesis Hsource : books (home w) !! s = Some bs.
Hypothesis Hdest : books (home w) !! d = Some bd.

Let l : list Book := books (home w).
Let l' : list Book := take d (delete s l) ++ bs :: drop d (delete s l).
Let w' : World := afterUpdates 0 l' (withBooks l' w).

Lemma reorder_run :
  handleDragEnd (mkDragEnd (id bs) (Some (id bd))) w = Some (tt, w').
Proof. by apply handleDragEnd_run. Qed.

Lemma reorder_books : books (home w') = l'.
Proof. unfold w'. by rewrite afterUpdates_home. Qed.

Lemma reorder_in_bounds : (d < length l)%nat.
Proof. by apply lookup_lt_Some in Hdest. Qed.

Lemma reorder_perm : l' ≡ₚ l.
Proof. by apply ArrayFacts.moved_perm. Qed.

Lemma reorder_ids : NoDup (id <$> l').
Proof. by rewrite reorder_perm. Qed.

Lemma reorder_requests :
  newRequests w w' = imap (fun i b => Update (Z.of_nat i) (id b)) l'.
Proof.
  unfold newRequests, w'. rewrite afterUpdates_sent. simpl.
  by rewrite drop_app_length.
Qed.


End Reorder.

(** C1, as the code has it. On a [Reorder(s, d)] over a list with distinct
    ids, [handleDragEnd] ends normally; the new local list is a permutation
    of the old one in which the record of position [s] stands at position
    [d] and the other records keep their relative order; the records
    themselves are the old ones, their [book_order] included. The requests
    it sends are one update per record, in list order, each writing the
    position of the record as its [book_order], so the written values are
    0, 1, ..., length - 1; when all of them succeed, every row of the table
    that belongs to a record of the list holds the position of that
    record. *)
Theorem handleDragEnd_reorder (w : World) (s d : nat) (bs bd : Book) :
  NoDup (id <$> books (home w)) ->
  s <> d ->
  books (home w) !! s = Some bs ->
  books (home w) !! d = Some bd ->
  exists w',
    handleDragEnd (mkDragEnd (id bs) (Some (id bd))) w = Some (tt, w')
    /\ books (home w') ≡ₚ books (home w)
    /\ books (home w') !! d = Some bs
    /\ delete d (books (home w')) = delete s (books (home w))
    /\ newRequests w w'
       = imap (fun i b => Update (Z.of_nat i) (id b)) (books (home w'))
    /\ (Forall (fun o => o = true) (outcomes w) ->
        forall i b r,
          books (home w') !! i = Some b ->
          r ∈ table w' ->
          id r = id b ->
          book_order r = Z.of_nat i).
Proof.
  intros Hids Hne Hs Hd.
  pose proof (reorder_in_bounds w d bd Hd) as Hlen.
  eexists. split; [by apply reorder_run |].
  rewrite reorder_books. repeat split.
  - by apply reorder_perm.
  - by apply ArrayFacts.moved_at_destination.
  - by apply ArrayFacts.moved_delete.
  - by apply reorder_requests.
  - intros Hok i b r Hi Hr Hid.
    rewrite <- (Z.add_0_l (Z.of_nat i)).
    eapply ReorderFacts.afterUpdates_table_renumbered; [| | exact Hi | exact Hr | exact Hid].
    + exact Hok.
    + by apply reorder_ids.
Qed.

Lemma handleDragEnd_reorder_witness :
  exists w',
    handleDragEnd (mkDragEnd 1 (Some 3)) world123 = Some (tt, w')
    /\ books (home w') ≡ₚ shelf123
    /\ books (home w') !! 2%nat = Some (mkBook 1 [] [] 0)
    /\ delete 2%nat (books (home w')) = delete 0%nat shelf123
    /\ newRequests world123 w'
       = imap (fun i b => Update (Z.of_nat i) (id b)) (books (home w'))
    /\ (Forall (fun o => o = true) (outcomes world123) ->
        forall i b r,
          books (home w') !! i = Some b ->
          r ∈ table w' ->
          id r = id b ->
          book_order r = Z.of_nat i).
Proof.
  apply (handleDragEnd_reorder world123 0 2 (mkBook 1 [] [] 0) (mkBook 3 [] [] 2)).
  - apply (bool_decide_unpack _). by vm_compute.
  - lia.
  - reflexivity.
  - reflexivity.
Defined.

(** C1, as the specification states it, fails on its own scenario: after
    [Reorder(0 -> 2)] on [[{id:1,order:0},{id:2,order:1},{id:3,order:2}]]
    the local list is [[{id:2,order:1},{id:3,order:2},{id:1,order:0}]]; the
    orders 0, 1, 2 go to the table, not into the local records. *)
Lemma reorder_keeps_local_book_order :
  handleDragEnd (mkDragEnd 1 (Some 3)) world123
  = Some (tt,
          mkWorld
            (mkHome [mkBook 2 [] [] 1; mkBook 3 [] [] 2; mkBook 1 [] [] 0] [] false [])
            [mkBook 1 [] [] 2; mkBook 2 [] [] 0; mkBook 3 [] [] 1]
            [] [Update 0 2; Update 1 3; Update 2 1] [])
  /\ ~ reorder_renumbers_local world123 0 2.
Proof.
  split; [reflexivity |]. intros Hclaim.
  destruct (Hclaim ltac:(apply (bool_decide_unpack _); by vm_compute)
                   ltac:(lia) (mkBook 1 [] [] 0) (mkBook 3 [] [] 2)
                   eq_refl eq_refl)
    as (w' & Hrun & _ & _ & _ & Horder).
  vm_compute in Hrun. injection Hrun as <-.
  specialize (Horder 0%nat (mkBook 2 [] [] 1) eq_refl). discriminate Horder.
Qed.




(** A list numbered by position over a table that another order was
    written to (the rows hold 2, 0, 1): [Reorder(0 -> 1)] writes the
    position 2 to the record of id 3, which stands outside the range, and
    its row goes from 1 to 2. What an update writes is the position, and
    only a row that already holds it is left alone. *)
Example reorder_writes_positions :
  let w := mkWorld (mkHome shelf123 [] false [])
             [mkBook 1 [] [] 2; mkBook 2 [] [] 0; mkBook 3 [] [] 1] [] [] [] in
  handleDragEnd (mkDragEnd 1 (Some 2)) w
  = Some (tt,
          mkWorld
            (mkHome [mkBook 2 [] [] 1; mkBook 1 [] [] 0; mkBook 3 [] [] 2] [] false [])
            [mkBook 1 [] [] 1; mkBook 2 [] [] 0; mkBook 3 [] [] 2]
            [] [Update 0 2; Update 1 1; Update 2 3] []).
Proof. reflexivity. Qed.

(** ** Scenarios *)

Module Scenarios.

Example extractASIN_dp :
  Asin.extractASIN (Some (JsString.lit "https://www.amazon.com/dp/B08XYZAB12/"))
  = Some (JsString.lit "B08XYZAB12").
Proof. reflexivity. Qed.

Example extractASIN_query :
  Asin.extractASIN (Some (JsString.lit "https://a.example/gp/product/4101010013?tag=x"))
  = Some (JsString.lit "4101010013").
Proof. reflexivity. Qed.

Example extractASIN_end_of_string :
  Asin.extractASIN (Some (JsString.lit "https://a.example/dp/4101010013"))
  = Some (JsString.lit "4101010013").
Proof. reflexivity. Qed.

Example extractASIN_eleven :
  Asin.extractASIN (Some (JsString.lit "https://a.example/dp/B08XYZAB123/")) = None.
Proof. reflexivity. Qed.

Example extractASIN_lowercase :
  Asin.extractASIN (Some (JsString.lit "https://a.example/dp/b08xyzab12/")) = None.
Proof. reflexivity. Qed.

Example extractASIN_leftmost :
  Asin.extractASIN (Some (JsString.lit "/lowercase0/AAAAAAAAAA/BBBBBBBBBB"))
  = Some (JsString.lit "AAAAAAAAAA").
Proof. reflexivity. Qed.

Example extractASIN_missing : Asin.extractASIN None = None.
Proof. reflexivity. Qed.

Example extractASIN_empty : Asin.extractASIN (Some []) = None.
Proof. reflexivity. Qed.

Example arrayMove_forward : JsArray.arrayMove [1; 2; 3; 4; 5] 1 3 = Some [1; 3; 4; 2; 5].
Proof. reflexivity. Qed.

Example arrayMove_backward : JsArray.arrayMove [1; 2; 3; 4; 5] 3 1 = Some [1; 4; 2; 3; 5].
Proof. reflexivity. Qed.

(** [findIndex] answers [-1] for an id that is not in the list, and
    [splice(-1, 1)] then takes the last element. *)
Example arrayMove_not_found : JsArray.arrayMove [1; 2; 3] (-1) 0 = Some [3; 1; 2].
Proof. reflexivity. Qed.

Example arrayMove_empty : JsArray.arrayMove ([] : list Z) (-1) (-1) = None.
Proof. reflexivity. Qed.

(** Adding the first book to an empty shelf: the row gets [book_order] 0
    and the reloaded list shows it; its cover is found from the url. *)
Example addBook_first :
  let u := JsString.lit "https://www.amazon.com/dp/B08XYZAB12/" in
  exec (fetchBooks;; changeUrl u;; addBook) (openPage [] [])
  = Some (mkWorld (mkHome [mkBook 1 u [] 0] [] false addedMessage)
            [mkBook 1 u [] 0] [] [Select; Insert u 0; Select] [2000])
  /\ Asin.extractASIN (Some u) = Some (JsString.lit "B08XYZAB12").
Proof. split; reflexivity. Qed.

(** The success message goes away when the timer fires. *)
Example fireTimer_clears_message :
  exec fireTimer
    (mkWorld (mkHome [] [] false addedMessage) [] [] [] [2000])
  = Some (mkWorld (mkHome [] [] false []) [] [] [] []).
Proof. reflexivity. Qed.

(** A list that is a reading of the table does not get shorter by an append
    whose insert and reload both succeed. *)
Lemma addBook_grows (w : World) :
  JsString.truthy (JsString.trim (newUrl (home w))) = true ->
  hd true (outcomes w) = true ->
  hd true (tl (outcomes w)) = true ->
  (length (books (home w)) <= length (table w))%nat ->
  exists w',
    addBook w = Some (tt, w')
    /\ (length (books (home w)) < length (books (home w')))%nat.
Proof.
  intros Hurl Hok Hok' Hlen.
  destruct (addBook_reloaded w Hurl Hok Hok') as (w' & Hrun & _ & _ & Hlen' & _).
  exists w'. split; [done | lia].
Qed.

End Scenarios.

(** ** Lists numbered by position, and the table behind them *)

Module DenseFacts.
Import Store StoreFacts ReorderFacts.

Lemma strongly_sorted_lookup {A} (R : relation A) (l : list A) :
  (forall i j x y,
      (i < j)%nat -> l !! i = Some x -> l !! j = Some y -> R x y) ->
  StronglySorted R l.
Proof.
  induction l as [|a l IH]; intros Hl; constructor.
  - apply IH. intros i j x y Hij Hi Hj.
    apply (Hl (S i) (S j) x y); [lia | done | done].
  - apply Forall_lookup. intros j y Hj.
    apply (Hl 0%nat (S j) a y); [lia | done | done].
Qed.

Lemma dense_strongly_sorted (l : list Book) :
  dense l -> StronglySorted order_le l.
Proof.
  intros Hdense. apply strongly_sorted_lookup. intros i j x y Hij Hi Hj.
  unfold order_le.
  rewrite (dense_lookup _ _ _ Hdense Hi), (dense_lookup _ _ _ Hdense Hj). lia.
Qed.

Lemma dense_same_order (l : list Book) (x y : Book) :
  dense l -> x ∈ l -> y ∈ l -> book_order x = book_order y -> x = y.
Proof.
  intros Hdense [i Hi]%list_elem_of_lookup [j Hj]%list_elem_of_lookup Heq.
  rewrite (dense_lookup _ _ _ Hdense Hi), (dense_lookup _ _ _ Hdense Hj) in Heq.
  assert (i = j) as -> by lia. congruence.
Qed.

(** Sorting a rearrangement of a list that is numbered by position gives
    that list. *)
Lemma ordered_dense (l t : list Book) :
  dense l -> t ≡ₚ l -> ordered t = l.
Proof.
  intros Hdense Hperm.
  apply (StronglySorted_unique_strong order_le).
  - intros x y Hx Hy Hxy Hyx. rewrite ordered_perm, Hperm in Hx.
    apply (dense_same_order l); [done.. |]. unfold order_le in *. lia.
  - apply StronglySorted_merge_sort; apply _.
  - by apply dense_strongly_sorted.
  - by rewrite ordered_perm.
Qed.

Lemma dense_renumbered (l : list Book) : dense (renumbered l).
Proof.
  unfold dense, renumbered. apply list_eq. intros i.
  rewrite !list_lookup_fmap, list_lookup_imap, length_imap.
  destruct (l !! i) as [b|] eqn:Hi; simpl.
  - rewrite lookup_seq_lt by (by apply lookup_lt_Some in Hi). done.
  - rewrite lookup_seq_ge by (by apply lookup_ge_None in Hi). done.
Qed.

Lemma dense_snoc (l : list Book) (b : Book) :
  dense l -> book_order b = Z.of_nat (length l) -> dense (l ++ [b]).
Proof.
  unfold dense. intros Hdense Hb.
  rewrite fmap_app, length_app, Hdense. simpl.
  rewrite Nat.add_1_r, seq_S, fmap_app. simpl. by rewrite Hb.
Qed.

Lemma allSucceed_hd (w : World) : allSucceed w -> hd true (outcomes w) = true.
Proof. unfold allSucceed. by intros []. Qed.

Lemma allSucceed_drop (w : World) (n : nat) :
  allSucceed w -> Forall (fun o => o = true) (drop n (outcomes w)).
Proof. unfold allSucceed. apply Forall_drop. Qed.

Lemma afterUpdates_table_all (k : Z) (l : list Book) (w : World) :
  allSucceed w ->
  table (afterUpdates k l w) = map (renumberRow k l) (table w).
Proof.
  revert k w. induction l as [|b l IH]; intros k w Hok.
  - simpl. by rewrite map_id.
  - cbn [afterUpdates]. rewrite IH.
    + simpl. rewrite (allSucceed_hd w Hok). by rewrite map_map.
    + unfold allSucceed in *. simpl. destruct Hok; [constructor | done].
Qed.

Lemma renumberRow_other (k : Z) (l : list Book) (r : Book) :
  id r ∉ id <$> l -> renumberRow k l r = r.
Proof.
  revert k. induction l as [|b l IH]; intros k Hr; [done |].
  rewrite fmap_cons, not_elem_of_cons in Hr. destruct Hr as [Hne Hr].
  simpl. destruct (Z.eqb_spec (id r) (id b)) as [Heq|_]; [done | by apply IH].
Qed.

Lemma renumberRow_at (k : Z) (l : list Book) (i : nat) (b r : Book) :
  NoDup (id <$> l) ->
  l !! i = Some b ->
  id r = id b ->
  renumberRow k l r = setOrder r (k + Z.of_nat i).
Proof.
  revert k i. induction l as [|b0 l IH]; intros k i Hnd Hi Hid; [done |].
  rewrite fmap_cons in Hnd. apply NoDup_cons in Hnd as [Hfresh Hnd].
  destruct i as [|i]; simpl in *.
  - injection Hi as ->. rewrite Hid, Z.eqb_refl, Z.add_0_r.
    apply renumberRow_other. simpl. by rewrite Hid.
  - destruct (Z.eqb_spec (id r) (id b0)) as [Heq|_].
    + destruct Hfresh. rewrite <- Heq, Hid.
      apply list_elem_of_fmap. exists b. split; [done |].
      by apply list_elem_of_lookup_2 in Hi.
    + rewrite (IH (k + 1) i Hnd Hi Hid). f_equal. lia.
Qed.

Lemma renumberRow_list (l : list Book) :
  NoDup (id <$> l) -> map (renumberRow 0 l) l = renumbered l.
Proof.
  intros Hnd. apply list_eq. intros i. unfold renumbered.
  rewrite list_lookup_fmap, list_lookup_imap.
  destruct (l !! i) as [b|] eqn:Hi; [| done]. simpl.
  by rewrite (renumberRow_at 0 l i b b Hnd Hi eq_refl).
Qed.

End DenseFacts.

(** ** Reorder, append and reload on a page that is in step with its table *)

(** X1. On a page whose list shows the rows of the table (ids distinct), a
    [Reorder(s, d)] whose updates all succeed, followed by a read that
    succeeds, ends with the list in the order the drag gave it and with
    every [book_order] equal to the position: the list is the moved list
    renumbered, and it is again in step with the table. *)
Theorem reorder_then_reload (w : World) (s d : nat) (bs bd : Book) :
  NoDup (id <$> books (home w)) ->
  s <> d ->
  books (home w) !! s = Some bs ->
  books (home w) !! d = Some bd ->
  inStep w ->
  allSucceed w ->
  exists w' w'',
    handleDragEnd (mkDragEnd (id bs) (Some (id bd))) w = Some (tt, w')
    /\ fetchBooks w' = Some (tt, w'')
    /\ books (home w'') = renumbered (books (home w'))
    /\ id <$> books (home w'') = id <$> books (home w')
    /\ dense (books (home w''))
    /\ inStep w''.
Proof.
  intros Hids Hne Hs Hd Hstep Hok.
  pose proof (reorder_run w s d bs bd Hids Hne Hs Hd) as Hrun.
  pose proof (reorder_perm w s d bs Hs) as Hperm.
  pose proof (reorder_ids w s d bs Hids Hs) as Hids'.
  set (l' := take d (delete s (books (home w)))
             ++ bs :: drop d (delete s (books (home w)))) in *.
  set (w' := afterUpdates 0 l' (withBooks l' w)) in *.
  assert (table w' ≡ₚ renumbered l') as Htable.
  { unfold w'. rewrite DenseFacts.afterUpdates_table_all by done. simpl.
    rewrite <- (DenseFacts.renumberRow_list l' Hids').
    apply fmap_Permutation. unfold inStep in Hstep.
    by rewrite <- Hstep, Hperm. }
  assert (hd true (outcomes w') = true) as Hhd.
  { unfold w'. rewrite ReorderFacts.afterUpdates_outcomes. simpl.
    by destruct (DenseFacts.allSucceed_drop w (length l') Hok). }
  assert (books (home w') = l') as Hbooks
    by (unfold w'; by rewrite ReorderFacts.afterUpdates_home).
  clearbody w'.
  exists w', (withBooks (Store.ordered (table w')) (afterSend Select w')).
  split; [done |]. split; [by rewrite fetchBooks_run, Hhd |].
  assert (Store.ordered (table w') = renumbered l') as Hsorted
    by (apply DenseFacts.ordered_dense; [apply DenseFacts.dense_renumbered | done]).
  simpl. rewrite Hsorted, Hbooks. repeat split.
  - unfold renumbered. apply list_eq. intros i.
    rewrite !list_lookup_fmap, list_lookup_imap. by destruct (l' !! i).
  - apply DenseFacts.dense_renumbered.
  - unfold inStep. simpl. by rewrite Htable.
Qed.

Lemma reorder_then_reload_witness :
  exists w' w'',
    handleDragEnd (mkDragEnd 1 (Some 3)) world123 = Some (tt, w')
    /\ fetchBooks w' = Some (tt, w'')
    /\ books (home w'') = renumbered (books (home w'))
    /\ id <$> books (home w'') = id <$> books (home w')
    /\ dense (books (home w''))
    /\ inStep w''.
Proof.
  apply (reorder_then_reload world123 0 2 (mkBook 1 [] [] 0) (mkBook 3 [] [] 2)).
  - apply (bool_decide_unpack _). by vm_compute.
  - lia.
  - reflexivity.
  - reflexivity.
  - unfold inStep. simpl. reflexivity.
  - constructor.
Defined.

(** X2. On a page whose list is numbered by position and shows the rows of
    the table, an append whose insert and reload both succeed puts the new
    record at the end of the list, after the records that were there, with
    [book_order] equal to the old length; the list is still numbered by
    position and in step with the table, the input is cleared, the success
    message is shown and its timer is started. *)
Theorem addBook_in_step (w : World) :
  JsString.truthy (JsString.trim (newUrl (home w))) = true ->
  allSucceed w ->
  inStep w ->
  dense (books (home w)) ->
  exists w',
    addBook w = Some (tt, w')
    /\ books (home w')
       = books (home w)
         ++ [mkBook (Store.nextId (table w)) (newUrl (home w)) []
               (Z.of_nat (length (books (home w))))]
    /\ dense (books (home w'))
    /\ inStep w'
    /\ newUrl (home w') = []
    /\ successMessage (home w') = addedMessage
    /\ timers w' = timers w ++ [2000].
Proof.
  intros Hurl Hok Hstep Hdense.
  assert (hd true (outcomes w) = true) as Hhd by (by apply DenseFacts.allSucceed_hd).
  assert (hd true (tl (outcomes w)) = true) as Hhd'.
  { unfold allSucceed in Hok. destruct Hok as [|o os _ Hos]; [done |].
    simpl. by destruct Hos. }
  destruct (addBook_reloaded w Hurl Hhd Hhd')
    as (w' & Hrun & Htable & Hbooks & _ & Hinput & Hmsg & Htimers).
  set (new := mkBook (Store.nextId (table w)) (newUrl (home w)) []
                (Z.of_nat (length (books (home w))))) in *.
  assert (dense (books (home w) ++ [new])) as Hdense'
    by (by apply DenseFacts.dense_snoc).
  assert (books (home w') = books (home w) ++ [new]) as Hlist.
  { rewrite Hbooks, Htable. apply DenseFacts.ordered_dense; [done |].
    unfold inStep in Hstep. by rewrite Hstep. }
  exists w'. repeat split; try done.
  - by rewrite Hlist.
  - unfold inStep in *. by rewrite Hlist, Htable, Hstep.
Qed.

Lemma addBook_in_step_witness :
  let w := mkWorld (mkHome shelf123 someUrl false []) shelf123 [] [] [] in
  exists w',
    addBook w = Some (tt, w')
    /\ books (home w') = shelf123 ++ [mkBook 4 someUrl [] 3]
    /\ dense (books (home w'))
    /\ inStep w'
    /\ newUrl (home w') = []
    /\ successMessage (home w') = addedMessage
    /\ timers w' = [2000].
Proof.
  intros w. apply (addBook_in_step w).
  - reflexivity.
  - constructor.
  - unfold inStep. simpl. reflexivity.
  - reflexivity.
Defined.

(** X3. A read that succeeds on a page whose list is numbered by position
    and shows the rows of the table leaves the component state as it is:
    reloading a shelf that is in step changes nothing on the screen. *)
Theorem fetchBooks_in_step (w : World) :
  hd true (outcomes w) = true ->
  inStep w ->
  dense (books (home w)) ->
  exists w',
    fetchBooks w = Some (tt, w')
    /\ home w' = home w
    /\ table w' = table w.
Proof.
  intros Hok Hstep Hdense. rewrite fetchBooks_run, Hok.
  eexists. split; [reflexivity |]. simpl. split; [| done].
  rewrite (DenseFacts.ordered_dense (books (home w))); [| done |].
  - by destruct (home w).
  - unfold inStep in Hstep. by rewrite Hstep.
Qed.

Lemma fetchBooks_in_step_witness :
  exists w',
    fetchBooks world123 = Some (tt, w')
    /\ home w' = home world123
    /\ table w' = table world123.
Proof.
  apply (fetchBooks_in_step world123).
  - reflexivity.
  - unfold inStep. simpl. reflexivity.
  - reflexivity.
Defined.

(** ** [arrayMove] and [findIndex] on any indices *)

Module MoveFacts.
Import JsArray.

Section Move.
Context {A : Type}.
Implicit Types (l : list A) (x : A).

Lemma relativeStart_range (len start : Z) :
  0 <= len -> 0 <= relativeStart len start <= len.
Proof.
  intros Hlen. unfold relativeStart.
  destruct (Z.ltb_spec start 0); lia.
Qed.

Lemma relativeStart_lt (len start : Z) :
  0 < len -> start < len -> relativeStart len start < len.
Proof.
  intros Hlen Hstart. unfold relativeStart.
  destruct (Z.ltb_spec start 0); lia.
Qed.

Lemma splice_remove_at l (start : Z) (k : nat) x :
  k = Z.to_nat (relativeStart (Z.of_nat (length l)) start) ->
  l !! k = Some x ->
  splice l start 1 [] = ([x], delete k l).
Proof.
  intros Hk Hx. pose proof (lookup_lt_Some _ _ _ Hx) as Hlen.
  pose proof (relativeStart_range (Z.of_nat (length l)) start ltac:(lia)) as Hr.
  unfold splice. cbv zeta.
  set (r := relativeStart (Z.of_nat (length l)) start) in *.
  replace (Z.min (Z.max 1 0) (Z.of_nat (length l) - r)) with 1 by lia.
  replace (Z.to_nat (r + 1)) with (S k) by lia.
  rewrite <- Hk. change (Z.to_nat 1) with 1%nat.
  rewrite (drop_S _ _ _ Hx). simpl. by rewrite delete_take_drop.
Qed.

Lemma splice_insert_at l (start : Z) x :
  splice l start 0 [x]
  = ([], take (Z.to_nat (relativeStart (Z.of_nat (length l)) start)) l
         ++ x :: drop (Z.to_nat (relativeStart (Z.of_nat (length l)) start)) l).
Proof.
  pose proof (relativeStart_range (Z.of_nat (length l)) start ltac:(lia)) as Hr.
  unfold splice. cbv zeta.
  set (r := relativeStart (Z.of_nat (length l)) start) in *.
  replace (Z.min (Z.max 0 0) (Z.of_nat (length l) - r)) with 0 by lia.
  by rewrite Z.add_0_r.
Qed.

(** On an array that is not empty, [arrayMove] with a source below the
    length takes one element out and puts it back somewhere. *)
Lemma arrayMove_some l (from to : Z) :
  l <> [] ->
  from < Z.of_nat (length l) ->
  exists (k k' : nat) x,
    l !! k = Some x
    /\ k = Z.to_nat (relativeStart (Z.of_nat (length l)) from)
    /\ arrayMove l from to
       = Some (take k' (delete k l) ++ x :: drop k' (delete k l)).
Proof.
  intros Hne Hfrom.
  assert (0 < Z.of_nat (length l)) as Hlen by (destruct l; [done | simpl; lia]).
  pose proof (relativeStart_lt _ _ Hlen Hfrom) as Hlt.
  pose proof (relativeStart_range (Z.of_nat (length l)) from ltac:(lia)) as Hr.
  set (k := Z.to_nat (relativeStart (Z.of_nat (length l)) from)).
  destruct (lookup_lt_is_Some_2 l k ltac:(lia)) as [x Hx].
  unfold arrayMove.
  rewrite (splice_remove_at l from k x eq_refl Hx), splice_insert_at.
  by eexists k, _, x.
Qed.

(** [splice] keeps every element: what it removes and what it leaves are,
    together, the array and the new items. *)
Lemma splice_perm l (start deleteCount : Z) (items : list A) :
  (splice l start deleteCount items).1 ++ (splice l start deleteCount items).2
  ≡ₚ items ++ l.
Proof.
  pose proof (relativeStart_range (Z.of_nat (length l)) start ltac:(lia)) as Hr.
  unfold splice. cbv zeta. simpl.
  set (r := relativeStart (Z.of_nat (length l)) start) in *.
  set (c := Z.min (Z.max deleteCount 0) (Z.of_nat (length l) - r)).
  replace (Z.to_nat (r + c)) with (Z.to_nat r + Z.to_nat c)%nat by lia.
  rewrite <- drop_drop.
  rewrite <- (take_drop (Z.to_nat r) l) at 4.
  rewrite <- (take_drop (Z.to_nat c) (drop (Z.to_nat r) l)) at 3.
  set (t1 := take (Z.to_nat r) l).
  set (t2 := take (Z.to_nat c) (drop (Z.to_nat r) l)).
  set (t3 := drop (Z.to_nat c) (drop (Z.to_nat r) l)).
  clearbody t1 t2 t3. solve_Permutation.
Qed.

Lemma splice_removed_length l (start deleteCount : Z) (items : list A) :
  (length (splice l start deleteCount items).1 <= Z.to_nat (Z.max deleteCount 0))%nat.
Proof.
  unfold splice. cbv zeta. simpl. rewrite length_take. lia.
Qed.

Lemma arrayMove_perm l l' (from to : Z) :
  arrayMove l from to = Some l' -> l' ≡ₚ l.
Proof.
  unfold arrayMove.
  pose proof (splice_perm l from 1 []) as Hperm.
  pose proof (splice_removed_length l from 1 []) as Hlen.
  destruct (splice l from 1 []) as [removed rest].
  destruct removed as [|x removed]; [done |].
  destruct removed as [|y removed]; [| simpl in Hlen; lia].
  simpl in Hperm. rewrite splice_insert_at. intros [= <-]. simpl.
  by rewrite <- Permutation_middle, take_drop.
Qed.

Lemma findIndexFrom_range (p : A -> bool) l (k : Z) :
  findIndexFrom p k l = -1
  \/ k <= findIndexFrom p k l < k + Z.of_nat (length l).
Proof.
  revert k. induction l as [|y l IH]; intros k; simpl; [by left |].
  destruct (p y); [right; lia |].
  destruct (IH (k + 1)) as [->|?]; [by left | right; lia].
Qed.

Lemma findIndex_range (p : A -> bool) l :
  -1 <= findIndex p l < Z.of_nat (length l) \/ l = [].
Proof.
  destruct l as [|y l]; [by right |]. left.
  destruct (findIndexFrom_range p (y :: l) 0) as [H|H];
    unfold findIndex; simpl length in *; lia.
Qed.

Lemma findIndexFrom_none (p : A -> bool) l (k : Z) :
  Forall (fun y => p y = false) l -> findIndexFrom p k l = -1.
Proof.
  intros H. revert k. induction H as [|y l Hy _ IH]; intros k; [done |].
  simpl. by rewrite Hy.
Qed.

End Move.

End MoveFacts.

(** ** [handleDragEnd] on any event *)

Module DragFacts.
Import ReorderFacts.

Lemma afterUpdates_table_field {B} (f : Book -> B) k l w :
  (forall r o, f (Store.setOrder r o) = f r) ->
  f <$> table (afterUpdates k l w) = f <$> table w.
Proof.
  intros Hf. revert k w. induction l as [|b l IH]; intros k w; [done |].
  cbn [afterUpdates]. rewrite IH. unfold afterUpdate. simpl.
  destruct (hd true (outcomes w)); [| done].
  rewrite <- list_fmap_compose. apply list_fmap_ext. intros i r _. simpl.
  by destruct (id r =? id b).
Qed.

(** The run of [handleDragEnd] past its guard, for any two indices that
    [arrayMove] accepts. *)
Lemma handleDragEnd_moved (w : World) (a o : Z) (l' : list Book) :
  a <> o ->
  JsArray.arrayMove (books (home w))
    (JsArray.findIndex (fun b => id b =? a) (books (home w)))
    (JsArray.findIndex (fun b => id b =? o) (books (home w))) = Some l' ->
  handleDragEnd (mkDragEnd a (Some o)) w
  = Some (tt, afterUpdates 0 l' (withBooks l' w)).
Proof.
  intros Hne Hmove. unfold handleDragEnd. rewrite bind_run.
  unfold getHome. simpl.
  destruct (Z.eqb_spec a o) as [?|_]; [done |].
  rewrite Hmove. rewrite bind_run. simpl. apply forEachIndexed_run.
Qed.

Lemma findIndex_absent (l : list Book) (a : Z) :
  Forall (fun b => id b <> a) l ->
  JsArray.findIndex (fun b => id b =? a) l = -1.
Proof.
  intros H. apply MoveFacts.findIndexFrom_none.
  eapply Forall_impl; [exact H |]. intros b Hb. by apply Z.eqb_neq.
Qed.

Lemma move_back {A} (l : list A) (s : nat) (x : A) :
  l !! s = Some x ->
  take s (delete s l) ++ x :: drop s (delete s l) = l.
Proof.
  intros Hs. pose proof (lookup_lt_Some _ _ _ Hs) as Hlen.
  rewrite delete_take_drop.
  rewrite take_app_length' by (rewrite length_take; lia).
  rewrite drop_app_length' by (rewrite length_take; lia).
  by apply take_drop_middle.
Qed.

End DragFacts.

(** X4. On a list that is not empty, [handleDragEnd] ends normally for
    every event, whatever ids it carries. The new list is a rearrangement
    of the old one: no record is lost, added or changed. The input, the
    toggle, the message and the timers are untouched; the requests sent are
    none, or one update per record of the new list carrying its position;
    and the rows of the table keep their ids, urls and comments. *)
Theorem handleDragEnd_keeps_records (w : World) (event : DragEndEvent) :
  books (home w) <> [] ->
  exists w',
    handleDragEnd event w = Some (tt, w')
    /\ books (home w') ≡ₚ books (home w)
    /\ newUrl (home w') = newUrl (home w)
    /\ showAll (home w') = showAll (home w)
    /\ successMessage (home w') = successMessage (home w)
    /\ timers w' = timers w
    /\ (newRequests w w' = []
        \/ newRequests w w'
           = imap (fun i b => Update (Z.of_nat i) (id b)) (books (home w')))
    /\ id <$> table w' = id <$> table w
    /\ url <$> table w' = url <$> table w
    /\ comment <$> table w' = comment <$> table w.
Proof.
  intros Hne. destruct event as [a [o|]].
  - destruct (decide (a = o)) as [->|Hao].
    + exists w. split.
      { unfold handleDragEnd. rewrite bind_run. unfold getHome. simpl.
        by rewrite Z.eqb_refl. }
      repeat split; try done. left. apply drop_all.
    + set (l := books (home w)) in *.
      set (from := JsArray.findIndex (fun b => id b =? a) l).
      set (to := JsArray.findIndex (fun b => id b =? o) l).
      assert (from < Z.of_nat (length l)) as Hfrom.
      { destruct (MoveFacts.findIndex_range (fun b => id b =? a) l) as [?|?];
          [unfold from; lia | done]. }
      destruct (MoveFacts.arrayMove_some l from to Hne Hfrom)
        as (k & k' & x & _ & _ & Hmove).
      pose proof (MoveFacts.arrayMove_perm _ _ _ _ Hmove) as Hperm.
      eexists. split; [by apply DragFacts.handleDragEnd_moved |].
      rewrite ReorderFacts.afterUpdates_home, ReorderFacts.afterUpdates_timers.
      repeat split; try done.
      * right. unfold newRequests. rewrite ReorderFacts.afterUpdates_sent.
        simpl. by rewrite drop_app_length.
      * by rewrite DragFacts.afterUpdates_table_field.
      * by rewrite DragFacts.afterUpdates_table_field.
      * by rewrite DragFacts.afterUpdates_table_field.
  - exists w. split; [done |]. repeat split; try done. left. apply drop_all.
Qed.

Lemma handleDragEnd_keeps_records_witness :
  exists w',
    handleDragEnd (mkDragEnd 99 (Some 2)) world123 = Some (tt, w')
    /\ books (home w') ≡ₚ books (home world123)
    /\ newUrl (home w') = newUrl (home world123)
    /\ showAll (home w') = showAll (home world123)
    /\ successMessage (home w') = successMessage (home world123)
    /\ timers w' = timers world123
    /\ (newRequests world123 w' = []
        \/ newRequests world123 w'
           = imap (fun i b => Update (Z.of_nat i) (id b)) (books (home w')))
    /\ id <$> table w' = id <$> table world123
    /\ url <$> table w' = url <$> table world123
    /\ comment <$> table w' = comment <$> table world123.
Proof.
  apply (handleDragEnd_keeps_records world123 (mkDragEnd 99 (Some 2))).
  simpl. discriminate.
Defined.

(** X5. On an empty list, a drag between two different ids ends in an
    exception: [arrayMove] puts [undefined] into the new array, and the
    handler reads [book.id] from it. *)
Theorem handleDragEnd_empty_list (w : World) (a o : Z) :
  books (home w) = [] ->
  a <> o ->
  handleDragEnd (mkDragEnd a (Some o)) w = None.
Proof.
  intros Hempty Hne. unfold handleDragEnd. rewrite bind_run.
  unfold getHome. simpl.
  destruct (Z.eqb_spec a o) as [?|_]; [done |]. by rewrite Hempty.
Qed.

Lemma handleDragEnd_empty_list_witness :
  handleDragEnd (mkDragEnd 1 (Some 2)) (openPage shelf123 []) = None.
Proof.
  apply (handleDragEnd_empty_list (openPage shelf123 []) 1 2).
  - reflexivity.
  - lia.
Defined.

(** X6. When the dragged id is not in the list, [findIndex] answers -1 and
    [arrayMove] takes the last record: the drag moves the last record of
    the list to the position of the record it was dropped over. *)
Theorem handleDragEnd_unknown_active (w : World) (a : Z) (d : nat)
    (init : list Book) (x bd : Book) :
  NoDup (id <$> books (home w)) ->
  books (home w) = init ++ [x] ->
  Forall (fun b => id b <> a) (books (home w)) ->
  books (home w) !! d = Some bd ->
  exists w',
    handleDragEnd (mkDragEnd a (Some (id bd))) w = Some (tt, w')
    /\ books (home w') = take d init ++ x :: drop d init.
Proof.
  intros Hids Hlast Habsent Hd.
  assert (a <> id bd) as Hne.
  { intros ->. apply list_elem_of_lookup_2 in Hd.
    by apply (proj1 (Forall_forall _ _) Habsent bd Hd). }
  pose proof (lookup_lt_Some _ _ _ Hd) as Hlen.
  exists (afterUpdates 0 (take d init ++ x :: drop d init)
            (withBooks (take d init ++ x :: drop d init) w)).
  split; [| by rewrite ReorderFacts.afterUpdates_home].
  apply DragFacts.handleDragEnd_moved; [done |].
  rewrite (DragFacts.findIndex_absent _ _ Habsent).
  rewrite (ReorderFacts.findIndex_id _ _ _ Hids Hd).
  unfold JsArray.arrayMove.
  destruct (Z.ltb_spec (Z.of_nat d) 0) as [?|_]; [lia |].
  rewrite (MoveFacts.splice_remove_at _ (-1) (length init) x).
  - rewrite Hlast, delete_middle, app_nil_r, MoveFacts.splice_insert_at.
    rewrite Hlast, length_app in Hlen. simpl in Hlen.
    unfold JsArray.relativeStart.
    destruct (Z.ltb_spec (Z.of_nat d) 0) as [?|_]; [lia |].
    replace (Z.to_nat (Z.min (Z.of_nat d) (Z.of_nat (length init))))
      with d by lia.
    reflexivity.
  - rewrite Hlast, length_app. simpl. unfold JsArray.relativeStart.
    simpl. lia.
  - rewrite Hlast. by apply (list_lookup_middle init [] x).
Qed.

Lemma handleDragEnd_unknown_active_witness :
  exists w',
    handleDragEnd (mkDragEnd 99 (Some 1)) world123 = Some (tt, w')
    /\ books (home w')
       = [mkBook 3 [] [] 2; mkBook 1 [] [] 0; mkBook 2 [] [] 1].
Proof.
  apply (handleDragEnd_unknown_active world123 99 0
           [mkBook 1 [] [] 0; mkBook 2 [] [] 1] (mkBook 3 [] [] 2)
           (mkBook 1 [] [] 0)).
  - apply (bool_decide_unpack _). by vm_compute.
  - reflexivity.
  - apply (bool_decide_unpack _). by vm_compute.
  - reflexivity.
Defined.

(** X7. When the id of the drop target is not in the list, [findIndex]
    answers -1 and [arrayMove] counts it from the end: the dragged record
    moves to the end of the list. *)
Theorem handleDragEnd_unknown_over (w : World) (o : Z) (s : nat) (bs : Book) :
  NoDup (id <$> books (home w)) ->
  books (home w) !! s = Some bs ->
  Forall (fun b => id b <> o) (books (home w)) ->
  exists w',
    handleDragEnd (mkDragEnd (id bs) (Some o)) w = Some (tt, w')
    /\ books (home w') = delete s (books (home w)) ++ [bs].
Proof.
  intros Hids Hs Habsent.
  assert (id bs <> o) as Hne.
  { apply list_elem_of_lookup_2 in Hs.
    by apply (proj1 (Forall_forall _ _) Habsent bs Hs). }
  pose proof (lookup_lt_Some _ _ _ Hs) as Hlen.
  exists (afterUpdates 0 (delete s (books (home w)) ++ [bs])
            (withBooks (delete s (books (home w)) ++ [bs]) w)).
  split; [| by rewrite ReorderFacts.afterUpdates_home].
  apply DragFacts.handleDragEnd_moved; [done |].
  rewrite (DragFacts.findIndex_absent _ _ Habsent).
  rewrite (ReorderFacts.findIndex_id _ _ _ Hids Hs).
  unfold JsArray.arrayMove. change (-1 <? 0) with true. cbv iota.
  rewrite (ArrayFacts.splice_remove _ _ _ Hs).
  rewrite MoveFacts.splice_insert_at.
  rewrite length_delete by eauto.
  unfold JsArray.relativeStart.
  destruct (Z.ltb_spec (Z.of_nat (length (books (home w))) + -1) 0) as [?|_];
    [lia |].
  rewrite take_ge, drop_ge; [reflexivity | |];
    rewrite length_delete by eauto; lia.
Qed.

Lemma handleDragEnd_unknown_over_witness :
  exists w',
    handleDragEnd (mkDragEnd 1 (Some 99)) world123 = Some (tt, w')
    /\ books (home w')
       = [mkBook 2 [] [] 1; mkBook 3 [] [] 2; mkBook 1 [] [] 0].
Proof.
  apply (handleDragEnd_unknown_over world123 99 0 (mkBook 1 [] [] 0)).
  - apply (bool_decide_unpack _). by vm_compute.
  - reflexivity.
  - apply (bool_decide_unpack _). by vm_compute.
Defined.

(** X8. A drag between two of the first five records of a collapsed shelf
    keeps the same five records on the screen, rearranged, and leaves every
    hidden record at its place. *)
Theorem handleDragEnd_collapsed (w : World) (s d : nat) (bs bd : Book) :
  NoDup (id <$> books (home w)) ->
  s <> d ->
  books (home w) !! s = Some bs ->
  books (home w) !! d = Some bd ->
  showAll (home w) = false ->
  (s < 5)%nat ->
  (d < 5)%nat ->
  exists w',
    handleDragEnd (mkDragEnd (id bs) (Some (id bd))) w = Some (tt, w')
    /\ visibleBooks (home w') ≡ₚ visibleBooks (home w)
    /\ drop 5 (books (home w')) = drop 5 (books (home w)).
Proof.
  intros Hids Hne Hs Hd Hcollapsed Hs5 Hd5.
  pose proof (reorder_in_bounds w d bd Hd) as Hlen.
  eexists. split; [by apply reorder_run |].
  unfold visibleBooks, JsArray.slice0.
  rewrite ReorderFacts.afterUpdates_home. simpl. rewrite Hcollapsed.
  set (l := books (home w)) in *.
  set (l' := take d (delete s l) ++ bs :: drop d (delete s l)).
  assert (drop 5 l' = drop 5 l) as Hdrop.
  { apply list_eq. intros i. rewrite !lookup_drop.
    apply (ArrayFacts.moved_outside l s d bs Hs Hlen). lia. }
  split; [| done].
  apply (Permutation_app_inv_r (drop 5 l)).
  rewrite <- Hdrop at 1. rewrite !take_drop.
  by apply ArrayFacts.moved_perm.
Qed.

Lemma handleDragEnd_collapsed_witness :
  exists w',
    handleDragEnd (mkDragEnd 12 (Some 15)) world7 = Some (tt, w')
    /\ visibleBooks (home w') ≡ₚ visibleBooks (home world7)
    /\ drop 5 (books (home w')) = drop 5 (books (home world7)).
Proof.
  apply (handleDragEnd_collapsed world7 1 4 (mkBook 12 [] [] 1) (mkBook 15 [] [] 4)).
  - apply (bool_decide_unpack _). by vm_compute.
  - lia.
  - reflexivity.
  - reflexivity.
  - reflexivity.
  - lia.
  - lia.
Defined.

(** X9. Dragging a record from position [s] to position [d] and then
    dragging it back onto the record that now stands at position [s] gives
    the list of the start. *)
Theorem handleDragEnd_there_and_back (w : World) (s d : nat) (bs bd : Book) :
  NoDup (id <$> books (home w)) ->
  s <> d ->
  books (home w) !! s = Some bs ->
  books (home w) !! d = Some bd ->
  exists w' b' w'',
    handleDragEnd (mkDragEnd (id bs) (Some (id bd))) w = Some (tt, w')
    /\ books (home w') !! s = Some b'
    /\ handleDragEnd (mkDragEnd (id bs) (Some (id b'))) w' = Some (tt, w'')
    /\ books (home w'') = books (home w).
Proof.
  intros Hids Hne Hs Hd.
  pose proof (reorder_in_bounds w d bd Hd) as Hlen.
  pose proof (reorder_run w s d bs bd Hids Hne Hs Hd) as Hrun.
  pose proof (reorder_perm w s d bs Hs) as Hperm.
  pose proof (reorder_ids w s d bs Hids Hs) as Hids'.
  pose proof (ArrayFacts.moved_at_destination _ s d bs Hs Hlen) as Hd'.
  pose proof (ArrayFacts.moved_delete _ s d bs Hs Hlen) as Hdelete.
  set (l := books (home w)) in *.
  set (l' := take d (delete s l) ++ bs :: drop d (delete s l)) in *.
  set (w' := afterUpdates 0 l' (withBooks l' w)) in *.
  assert (books (home w') = l') as Hbooks
    by (unfold w'; by rewrite ReorderFacts.afterUpdates_home).
  destruct (lookup_lt_is_Some_2 l' s) as [b' Hs'].
  { rewrite Hperm. by apply lookup_lt_Some in Hs. }
  clearbody w'.
  exists w', b'. eexists. split; [done |]. split; [by rewrite Hbooks |].
  split.
  - apply (reorder_run w' d s bs b'); rewrite ?Hbooks; [done | congruence | done | done].
  - rewrite ReorderFacts.afterUpdates_home. simpl. rewrite Hbooks, Hdelete.
    by apply DragFacts.move_back.
Qed.

Lemma handleDragEnd_there_and_back_witness :
  exists w' b' w'',
    handleDragEnd (mkDragEnd 1 (Some 3)) world123 = Some (tt, w')
    /\ books (home w') !! 0%nat = Some b'
    /\ handleDragEnd (mkDragEnd 1 (Some (id b'))) w' = Some (tt, w'')
    /\ books (home w'') = books (home world123).
Proof.
  apply (handleDragEnd_there_and_back world123 0 2
           (mkBook 1 [] [] 0) (mkBook 3 [] [] 2)).
  - apply (bool_decide_unpack _). by vm_compute.
  - lia.
  - reflexivity.
  - reflexivity.
Defined.

(** ** Chunks *)

Module ChunkFacts.
Import Chunk.

Section Chunk.
Context {A : Type}.
Implicit Types (a : list A).

Lemma slice_chunk a (n sz : nat) :
  (n < length a)%nat ->
  (0 < sz)%nat ->
  slice a (Z.of_nat n) (Z.of_nat n + Z.of_nat sz) = take sz (drop n a).
Proof.
  intros Hn Hsz. unfold slice, JsArray.relativeStart. cbv zeta.
  destruct (Z.ltb_spec (Z.of_nat n) 0) as [?|_]; [lia |].
  destruct (Z.ltb_spec (Z.of_nat n + Z.of_nat sz) 0) as [?|_]; [lia |].
  replace (Z.to_nat (Z.min (Z.of_nat n) (Z.of_nat (length a)))) with n by lia.
  destruct (decide (n + sz <= length a)%nat) as [Hle|Hgt].
  - f_equal. lia.
  - rewrite !take_ge; [done | |]; rewrite length_drop; lia.
Qed.

Lemma chunkLoop_run (fuel : nat) a (sz n : nat) (result : list (list A)) :
  (0 < sz)%nat ->
  (length a - n <= fuel)%nat ->
  exists chunks,
    chunkLoop fuel a (Z.of_nat sz) (Z.of_nat n) result = Some (result ++ chunks)
    /\ concat chunks = drop n a
    /\ forall j c,
         chunks !! j = Some c ->
         c = take sz (drop (n + j * sz) a) /\ (n + j * sz < length a)%nat.
Proof.
  intros Hsz. revert n result.
  induction fuel as [|fuel IH]; intros n result Hfuel.
  - exists []. simpl.
    destruct (Z.ltb_spec (Z.of_nat n) (Z.of_nat (length a))) as [?|_]; [lia |].
    rewrite app_nil_r, drop_ge by lia. done.
  - cbn [chunkLoop].
    destruct (Z.ltb_spec (Z.of_nat n) (Z.of_nat (length a))) as [Hlt|Hge].
    + rewrite slice_chunk by lia.
      replace (Z.of_nat n + Z.of_nat sz) with (Z.of_nat (n + sz)) by lia.
      destruct (IH (n + sz)%nat (result ++ [take sz (drop n a)]) ltac:(lia))
        as (chunks & -> & Hconcat & Hchunks).
      exists (take sz (drop n a) :: chunks). rewrite <- app_assoc.
      split; [done |]. split.
      * simpl. rewrite Hconcat, <- drop_drop. apply take_drop.
      * intros [|j] c; simpl.
        -- intros [= <-]. rewrite Nat.add_0_r. split; [done | lia].
        -- intros Hc. destruct (Hchunks j c Hc) as [-> Hj].
           replace (n + (sz + j * sz))%nat with (n + sz + j * sz)%nat by lia.
           done.
    + exists []. rewrite app_nil_r, drop_ge by lia. done.
Qed.

Lemma chunkLoop_stuck (fuel : nat) a (size i : Z) (result : list (list A)) :
  size <= 0 ->
  i <= 0 ->
  a <> [] ->
  chunkLoop fuel a size i result = None.
Proof.
  intros Hsize. revert i result.
  induction fuel as [|fuel IH]; intros i result Hi Ha; simpl;
    destruct (Z.ltb_spec i (Z.of_nat (length a))) as [_|Hge];
    try done; try (apply IH; [lia | done]);
    destruct a; [done | simpl in Hge; lia | done | simpl in Hge; lia].
Qed.

End Chunk.

End ChunkFacts.

(** X10. With a [size] that is a positive integer, [chunkArray] returns
    after at most one turn of its loop per element. The chunks, put one
    after the other, are the array; chunk [j] holds the elements from
    position [j * size] on, at most [size] of them, and no chunk is empty.
    (Sizes that are not integers are not covered.) *)
Theorem chunkArray_chunks {A} (fuel : nat) (array : list A) (size : Z) :
  0 < size ->
  (length array <= fuel)%nat ->
  exists chunks,
    Chunk.chunkArray fuel array size = Some chunks
    /\ concat chunks = array
    /\ forall j c,
         chunks !! j = Some c ->
         c = take (Z.to_nat size) (drop (j * Z.to_nat size) array)
         /\ (0 < length c <= Z.to_nat size)%nat.
Proof.
  intros Hsize Hfuel. unfold Chunk.chunkArray.
  destruct (ChunkFacts.chunkLoop_run fuel array (Z.to_nat size) 0 [])
    as (chunks & Hrun & Hconcat & Hchunks); [lia.. |].
  rewrite Z2Nat.id in Hrun by lia.
  exists chunks. split; [done |]. split; [done |].
  intros j c Hc. destruct (Hchunks j c Hc) as [-> Hj]. simpl in *.
  split; [done |]. rewrite length_take, length_drop. lia.
Qed.

Lemma chunkArray_chunks_witness :
  exists chunks,
    Chunk.chunkArray 7 [1; 2; 3; 4; 5; 6; 7] 5 = Some chunks
    /\ concat chunks = [1; 2; 3; 4; 5; 6; 7]
    /\ forall j c,
         chunks !! j = Some c ->
         c = take (Z.to_nat 5) (drop (j * Z.to_nat 5) [1; 2; 3; 4; 5; 6; 7])
         /\ (0 < length c <= Z.to_nat 5)%nat.
Proof.
  apply (chunkArray_chunks 7 [1; 2; 3; 4; 5; 6; 7] 5).
  - lia.
  - simpl. lia.
Defined.

(** X11. With a [size] of zero or less and an array that is not empty, the
    loop of [chunkArray] never ends: the counter never reaches the length,
    so no amount of fuel gives a result. *)
Theorem chunkArray_no_progress {A} (array : list A) (size : Z) (fuel : nat) :
  size <= 0 ->
  array <> [] ->
  Chunk.chunkArray fuel array size = None.
Proof.
  intros Hsize Harray. unfold Chunk.chunkArray.
  by apply ChunkFacts.chunkLoop_stuck.
Qed.

Lemma chunkArray_no_progress_witness :
  Chunk.chunkArray 1000 [1; 2; 3] 0 = None.
Proof.
  apply (chunkArray_no_progress [1; 2; 3] 0 1000).
  - lia.
  - discriminate.
Defined.

(** ** Covers and the toggle button *)

Module CoverFacts.
Import Asin AsinFacts.

Lemma extractASIN_present (s : JsString.t) :
  extractASIN (Some s) = regexMatch s.
Proof.
  unfold extractASIN. destruct s as [|c s]; [done |]. simpl JsString.truthy.
  cbn [negb]. by destruct (regexMatch (c :: s)).
Qed.

Lemma segment_truthy (s pre seg post : JsString.t) :
  asin_segment s pre seg post -> JsString.truthy seg = true.
Proof. intros (_ & Hlen & _). by destruct seg. Qed.

Lemma getCoverImageUrl_truthy (asin : JsString.t) :
  JsString.truthy (getCoverImageUrl asin) = true.
Proof. reflexivity. Qed.

Lemma regexMatch_step (c : N) (s : JsString.t) :
  matchHere (c :: s) = None -> regexMatch (c :: s) = regexMatch s.
Proof. intros H. cbn [regexMatch]. by rewrite H. Qed.

Lemma regexMatch_skip (pre s : JsString.t) :
  Forall (fun c => c <> slash) pre -> regexMatch (pre ++ s) = regexMatch s.
Proof.
  induction 1 as [|c pre Hc _ IH]; [done |]. simpl app.
  rewrite regexMatch_step; [done |]. unfold matchHere.
  by destruct (N.eqb_spec c slash).
Qed.

Lemma upper_or_digit_not_slash (c : N) : upper_or_digit c -> c <> slash.
Proof. unfold upper_or_digit, slash. lia. Qed.

End CoverFacts.

(** X12. [SortableBook] renders a cover exactly when the url of the book
    holds an identifier: the [src] of the image is the cover address built
    from the first 10-character segment of uppercase letters and digits
    that stands between [/] and [/], [?] or the end of the url; without
    such a segment no image is rendered. *)
Theorem coverImage_of_first_segment (book : Book) :
  match coverImage book with
  | Some src =>
      exists pre seg post,
        Asin.asin_segment (url book) pre seg post
        /\ (forall pre' seg' post',
              Asin.asin_segment (url book) pre' seg' post' ->
              (length pre <= length pre')%nat)
        /\ src = Asin.getCoverImageUrl seg
  | None =>
      forall pre seg post, ~ Asin.asin_segment (url book) pre seg post
  end.
Proof.
  unfold coverImage, imageUrl. rewrite CoverFacts.extractASIN_present.
  destruct (Asin.regexMatch (url book)) as [seg|] eqn:Hm.
  - apply AsinFacts.regexMatch_Some in Hm as (pre & post & Hseg & Hfirst).
    rewrite (CoverFacts.segment_truthy _ _ _ _ Hseg).
    rewrite CoverFacts.getCoverImageUrl_truthy.
    by exists pre, seg, post.
  - simpl. by apply AsinFacts.regexMatch_None.
Qed.

(** X13. The toggle button is rendered exactly when the collapsed shelf
    hides records. When it is rendered, [remainingCount] is positive and a
    collapsed shelf shows five records and hides [remainingCount] of them;
    when it is not, the shelf shows every record, whatever the toggle
    says. *)
Theorem toggleButton_hidden_records (h : HomeState) :
  if toggleButtonShown h
  then 0 < remainingCount h
       /\ (showAll h = false ->
           length (visibleBooks h) = 5%nat
           /\ Z.of_nat (length (visibleBooks h)) + remainingCount h
              = Z.of_nat (length (books h)))
  else remainingCount h <= 0 /\ visibleBooks h = books h.
Proof.
  unfold toggleButtonShown, remainingCount, visibleBooks, JsArray.slice0.
  destruct (Z.ltb_spec 5 (Z.of_nat (length (books h)))) as [Hlt|Hge].
  - split; [lia |]. intros ->. rewrite length_take. lia.
  - split; [lia |]. destruct (showAll h); [done |].
    apply take_ge. lia.
Qed.

(** X14. The address of a cover is not itself a product url: for every
    identifier (10 uppercase letters and digits), [extractASIN] finds
    nothing in [getCoverImageUrl(asin)], because the identifier is followed
    there by a dot. *)
Theorem extractASIN_of_cover (asin : JsString.t) :
  length asin = 10%nat ->
  Forall Asin.upper_or_digit asin ->
  Asin.extractASIN (Some (Asin.getCoverImageUrl asin)) = None.
Proof.
  intros Hlen Hall. rewrite CoverFacts.extractASIN_present.
  unfold Asin.getCoverImageUrl.
  set (prefix := JsString.lit _). vm_compute in prefix. subst prefix.
  set (suffix := JsString.lit _). vm_compute in suffix. subst suffix.
  cbn [app].
  repeat (rewrite CoverFacts.regexMatch_step by reflexivity).
  rewrite CoverFacts.regexMatch_step.
  - rewrite CoverFacts.regexMatch_skip; [reflexivity |].
    eapply Forall_impl; [exact Hall |].
    apply CoverFacts.upper_or_digit_not_slash.
  - unfold Asin.matchHere.
    change (47 =? Asin.slash)%N with true. cbv iota.
    match goal with
    | |- context [Asin.matchClassN 10 (asin ++ ?r)] =>
        rewrite (proj2 (AsinFacts.matchClassN_spec 10 (asin ++ r) asin r))
          by (by repeat split)
    end.
    reflexivity.
Qed.

Lemma extractASIN_of_cover_witness :
  Asin.extractASIN (Some (Asin.getCoverImageUrl (JsString.lit "B08XYZAB12")))
  = None.
Proof.
  apply (extractASIN_of_cover (JsString.lit "B08XYZAB12")).
  - reflexivity.
  - apply (bool_decide_unpack _). by vm_compute.
Defined.

(** ** Append, beyond the guard *)

(** X15. When the input holds a character that is not white space,
    [addBook] passes its guard and the first thing it does is to send one
    insert; the row it asks for carries the input exactly as typed (white
    space around it included) and the length of the local list as
    [book_order]. *)
Theorem addBook_inserts_input_as_typed (w : World) :
  Exists (fun c => JsString.isWhiteSpace c = false) (newUrl (home w)) ->
  exists w' rest,
    addBook w = Some (tt, w')
    /\ newRequests w w'
       = Insert (newUrl (home w)) (Z.of_nat (length (books (home w)))) :: rest
    /\ (rest = [] \/ rest = [Select]).
Proof.
  intros Hchar.
  assert (JsString.truthy (JsString.trim (newUrl (home w))) = true) as Hurl.
  { destruct (JsString.truthy (JsString.trim (newUrl (home w)))) eqn:Ht;
      [done |].
    apply TrimFacts.trim_truthy in Ht. apply Exists_exists in Hchar.
    destruct Hchar as (c & Hc & Hws).
    rewrite Forall_forall in Ht. specialize (Ht c Hc). congruence. }
  unfold addBook. rewrite bind_run. unfold getHome.
  rewrite Hurl. cbn [negb]. rewrite bind_run.
  destruct (hd true (outcomes w)) eqn:Hok.
  - rewrite (StoreFacts.insert_ok_run _ _ _ Hok). simpl.
    rewrite bind_run, select_run. simpl.
    eexists _, [Select]. split; [reflexivity |]. unfold newRequests. simpl.
    rewrite <- app_assoc, drop_app_length. split; [done | by right].
  - rewrite (insert_fail_run _ _ _ Hok). simpl.
    eexists _, []. split; [reflexivity |]. unfold newRequests. simpl.
    rewrite drop_app_length. split; [done | by left].
Qed.

Lemma addBook_inserts_input_as_typed_witness :
  let u := JsString.lit "  https://a.example/dp/B08XYZAB12/ " in
  let w := mkWorld (mkHome shelf123 u false []) shelf123 [] [] [] in
  exists w' rest,
    addBook w = Some (tt, w')
    /\ newRequests w w' = Insert u 3 :: rest
    /\ (rest = [] \/ rest = [Select]).
Proof.
  intros u w. apply (addBook_inserts_input_as_typed w).
  apply (bool_decide_unpack _). by vm_compute.
Defined.

(** X16. On a page whose list is no longer than the table, an append whose
    insert and reload both succeed ends with a list that is strictly
    longer: it shows every row of the table, the new one included. *)
Theorem addBook_success_grows (w : World) :
  JsString.truthy (JsString.trim (newUrl (home w))) = true ->
  hd true (outcomes w) = true ->
  hd true (tl (outcomes w)) = true ->
  (length (books (home w)) <= length (table w))%nat ->
  exists w',
    addBook w = Some (tt, w')
    /\ books (home w') ≡ₚ table w'
    /\ length (table w') = S (length (table w))
    /\ (length (books (home w)) < length (books (home w')))%nat.
Proof.
  intros Hurl Hok Hok' Hlen.
  destruct (addBook_reloaded w Hurl Hok Hok')
    as (w' & Hrun & Htable & Hbooks & Hlen' & _).
  exists w'. split; [done |]. split; [| split; [| lia]].
  - rewrite Hbooks. apply StoreFacts.ordered_perm.
  - rewrite Htable, length_app. simpl. lia.
Qed.

Lemma addBook_success_grows_witness :
  let w := mkWorld (mkHome [] someUrl false []) shelf123 [] [] [] in
  exists w',
    addBook w = Some (tt, w')
    /\ books (home w') ≡ₚ table w'
    /\ length (table w') = S (length (table w))
    /\ (length (books (home w)) < length (books (home w')))%nat.
Proof.
  intros w. apply (addBook_success_grows w).
  - reflexivity.
  - reflexivity.
  - reflexivity.
  - simpl. lia.
Defined.

(** ** Out of step *)

Module DivergeFacts.

Lemma afterUpdates_all_failed (k : Z) (l : list Book) (w : World)
    (rest : list bool) :
  outcomes w = replicate (length l) false ++ rest ->
  table (afterUpdates k l w) = table w
  /\ outcomes (afterUpdates k l w) = rest.
Proof.
  revert k w. induction l as [|b l IH]; intros k w Hout; [done |].
  cbn [afterUpdates]. simpl in Hout.
  destruct (IH (k + 1) (afterUpdate k (id b) w)) as [-> ->].
  - simpl. by rewrite Hout.
  - simpl. by rewrite Hout.
Qed.

End DivergeFacts.

(** X17. [addBook] numbers the new row by the length of the local list,
    not by what the table holds: when a row of the table already has that
    [book_order] (the list is behind the table, as after a failed read),
    an insert that succeeds leaves two rows with the same [book_order]. *)
Theorem addBook_duplicates_order (w : World) (j : nat) (r : Book) :
  JsString.truthy (JsString.trim (newUrl (home w))) = true ->
  hd true (outcomes w) = true ->
  table w !! j = Some r ->
  book_order r = Z.of_nat (length (books (home w))) ->
  exists w' r',
    addBook w = Some (tt, w')
    /\ table w' !! j = Some r
    /\ table w' !! length (table w) = Some r'
    /\ j <> length (table w)
    /\ book_order r' = book_order r.
Proof.
  intros Hurl Hok Hj Horder.
  pose proof (lookup_lt_Some _ _ _ Hj) as Hlen.
  unfold addBook. rewrite bind_run. unfold getHome.
  rewrite Hurl. cbn [negb]. rewrite bind_run.
  rewrite (StoreFacts.insert_ok_run _ _ _ Hok). simpl.
  rewrite bind_run, select_run. simpl.
  eexists _, (mkBook (Store.nextId (table w)) (newUrl (home w)) []
                (Z.of_nat (length (books (home w))))).
  split; [reflexivity |]. simpl. repeat split.
  - by apply lookup_app_l_Some.
  - by apply list_lookup_middle.
  - lia.
  - done.
Qed.

Lemma addBook_duplicates_order_witness :
  let w := mkWorld (mkHome [] someUrl false []) shelf123 [] [] [] in
  exists w' r',
    addBook w = Some (tt, w')
    /\ table w' !! 0%nat = Some (mkBook 1 [] [] 0)
    /\ table w' !! length (table w) = Some r'
    /\ 0%nat <> length (table w)
    /\ book_order r' = book_order (mkBook 1 [] [] 0).
Proof.
  intros w. apply (addBook_duplicates_order w 0 (mkBook 1 [] [] 0));
    reflexivity.
Defined.

(** X18. [handleDragEnd] does not look at the answers to its updates: when
    every update of a [Reorder(s, d)] fails, the handler still ends
    normally with the moved list on the screen, while the table is as it
    was before the drag. *)
Theorem handleDragEnd_failed_updates (w : World) (s d : nat) (bs bd : Book)
    (rest : list bool) :
  NoDup (id <$> books (home w)) ->
  s <> d ->
  books (home w) !! s = Some bs ->
  books (home w) !! d = Some bd ->
  outcomes w = replicate (length (books (home w))) false ++ rest ->
  exists w',
    handleDragEnd (mkDragEnd (id bs) (Some (id bd))) w = Some (tt, w')
    /\ books (home w') !! d = Some bs
    /\ books (home w') <> books (home w)
    /\ table w' = table w
    /\ length (newRequests w w') = length (books (home w))
    /\ outcomes w' = rest.
Proof.
  intros Hids Hne Hs Hd Hout.
  pose proof (reorder_in_bounds w d bd Hd) as Hlen.
  pose proof (reorder_perm w s d bs Hs) as Hperm.
  pose proof (ArrayFacts.moved_at_destination _ s d bs Hs Hlen) as Hd'.
  eexists. split; [by apply reorder_run |].
  rewrite reorder_books, reorder_requests, length_imap.
  set (l' := take d (delete s (books (home w)))
             ++ bs :: drop d (delete s (books (home w)))) in *.
  destruct (DivergeFacts.afterUpdates_all_failed 0 l' (withBooks l' w) rest)
    as [Htable Hrest].
  { simpl. by rewrite Hperm. }
  repeat split; try done.
  - intros Heq. rewrite Heq in Hd'.
    assert (s = d); [| done].
    apply (NoDup_lookup _ _ _ (id bs) Hids); rewrite list_lookup_fmap.
    + by rewrite Hs.
    + by rewrite Hd'.
  - by rewrite Hperm.
Qed.

Lemma handleDragEnd_failed_updates_witness :
  let w := mkWorld (mkHome shelf123 [] false []) shelf123
             [false; false; false; true] [] [] in
  exists w',
    handleDragEnd (mkDragEnd 1 (Some 3)) w = Some (tt, w')
    /\ books (home w') !! 2%nat = Some (mkBook 1 [] [] 0)
    /\ books (home w') <> books (home w)
    /\ table w' = table w
    /\ length (newRequests w w') = length (books (home w))
    /\ outcomes w' = [true].
Proof.
  intros w.
  apply (handleDragEnd_failed_updates w 0 2 (mkBook 1 [] [] 0) (mkBook 3 [] [] 2) [true]).
  - apply (bool_decide_unpack _). by vm_compute.
  - lia.
  - reflexivity.
  - reflexivity.
  - reflexivity.
Defined.
